(** * CanvasSlider: a shallow embedding of [src/CanvasSlider.tsx]

    The component paints a horizontal strip of images on a canvas and lets
    the user drag it.  This file embeds the component's functions as Rocq
    functions and its event handlers as a step function on an explicit
    component state, and proves the properties the specification states
    about them.

    Conventions of the embedding.

    - A JavaScript [number] is an exact rational ([Q]); the theorems are
      about exact arithmetic, not about IEEE rounding.  Rocq's [x / 0] is
      [0] where JavaScript gives [NaN] or an infinity, so the one division
      whose divisor a handler does not control ([scrollRef / slideWidth]
      in [drawCurrentImages]) is guarded by an explicit zero test that
      reproduces what JavaScript does there; the image fitter is used on
      positive sizes only.
    - Rounding decides more than a last digit in one place: line 67
      applies [Math.floor] to the rounded quotient, which can be an
      integer that the exact quotient does not reach.  That line, with
      the remainder of line 68 and the clamp of lines 140-141, is
      embedded a second time on binary64 numbers ([drawCurrentImages64],
      [handleMouseMove64]), with Rocq's primitive floats for the
      operations the code rounds.
    - Numbers are compared with [==] ([Qeq]), the equality of rationals.
    - The 2D context and the canvas element are a log of the calls made on
      them ([CanvasOp]), in program order.
    - React state ([useState]), refs ([useRef]) and props are fields of one
      record; the listeners of an effect read the fields of the current
      state, because every effect that installs a listener lists what the
      listener closes over among its dependencies and is re-run when one
      of them changes.  A state change, the render it causes and the
      effects of that render are one step.  What outlives a render is
      modelled as captured data: the callback handed to
      [requestAnimationFrame], the pixel ratio read when the resize effect
      runs, and the promises of a [loadImages] call.
    - The page is a sequence of events ([Event]): changes of a prop, image
      [onload] / [onerror], mouse events, window resizes, changes of the
      display's pixel ratio, and display frames. *)

From Stdlib Require Import Floats.
From Stdlib Require Import QArith Qround Qminmax ZArith List String Bool Lia Lqa.
From Stdlib Require Import Permutation.
Import ListNotations.

#[local] Open Scope Q_scope.

(** ** JavaScript arithmetic on rationals *)

Module JS.

(** [Math.trunc]: rounding towards zero. *)
Definition trunc (q : Q) : Z :=
  if Qle_bool 0 q then Qfloor q else Qceiling q.

(** [a % b] for [b <> 0]: the remainder has the sign of the dividend,
    [a - b * trunc (a / b)]. *)
Definition rem (a b : Q) : Q := a - b * inject_Z (trunc (a / b)).

(** [x > y] *)
Definition gtb (x y : Q) : bool := negb (Qle_bool x y).

(** [arr[i]] for an integer index: [undefined] out of range. *)
Definition get {A : Type} (arr : list A) (i : Z) : option A :=
  if (i <? 0)%Z then None else nth_error arr (Z.to_nat i).

(** [arr.length] as a number. *)
Definition length {A : Type} (arr : list A) : Q :=
  inject_Z (Z.of_nat (List.length arr)).

(** [x || 1] on numbers: [0] is falsy. *)
Definition or1 (x : Q) : Q := if Qeq_bool x 0 then 1 else x.

End JS.

(** ** The drawing surface *)

(** An [HTMLImageElement] once loaded: its source and intrinsic size. *)
Record Image : Type := mkImage {
  src : string;
  width : Q;
  height : Q
}.

(** [canvas.getBoundingClientRect()]: the logical size of the canvas. *)
Record DOMRect : Type := mkRect {
  rect_width : Q;
  rect_height : Q
}.

(** One call on the canvas element or on its 2D context. *)
Inductive CanvasOp : Type :=
| SetCanvasWidth (w : Q)                      (* canvas.width = w *)
| SetCanvasHeight (h : Q)                     (* canvas.height = h *)
| SetTransform (a b c d e f : Q)              (* ctx.setTransform(a,b,c,d,e,f) *)
| Scale (x y : Q)                             (* ctx.scale(x, y) *)
| ClearRect (x y w h : Q)                     (* ctx.clearRect(x, y, w, h) *)
| SetFillStyle (color : string)               (* ctx.fillStyle = color *)
| FillRect (x y w h : Q)                      (* ctx.fillRect(x, y, w, h) *)
| DrawImage (img : Image) (x y w h : Q).      (* ctx.drawImage(img, x, y, w, h) *)

(** ** [drawImageFit] (lines 20-47) *)

(** The rectangle [drawImageFit] computes, relative to the target
    rectangle's origin. *)
Record DrawRect : Type := mkDrawRect {
  drawX : Q;
  drawY : Q;
  drawWidth : Q;
  drawHeight : Q
}.

(** Lines 21-39 of [drawImageFit]: the geometry. *)
Definition fitRect (img : Image) (canvasWidth canvasHeight : Q) : DrawRect :=
  let imgRatio := width img / height img in
  let canvasRatio := canvasWidth / canvasHeight in
  if JS.gtb imgRatio canvasRatio then
    (* Image is wider than canvas: fit width *)
    let drawWidth := canvasWidth in
    let drawHeight := canvasWidth / imgRatio in
    mkDrawRect 0 ((canvasHeight - drawHeight) / 2) drawWidth drawHeight
  else
    (* Image is taller than canvas: fit height *)
    let drawHeight := canvasHeight in
    let drawWidth := canvasHeight * imgRatio in
    mkDrawRect ((canvasWidth - drawWidth) / 2) 0 drawWidth drawHeight.

(** [drawImageFit]: the background fill over the whole target rectangle at
    [xOffset], then the image in its fitted rectangle. *)
Definition drawImageFit (img : Image) (xOffset canvasWidth canvasHeight : Q)
    (backgroundColor : string) : list CanvasOp :=
  let r := fitRect img canvasWidth canvasHeight in
  [ SetFillStyle backgroundColor;
    FillRect xOffset 0 canvasWidth canvasHeight;
    DrawImage img (drawX r + xOffset) (drawY r) (drawWidth r) (drawHeight r) ].

(** ** [drawCurrentImages] (lines 60-77) *)

(** [if (img) drawImageFit({...})]: an image element is truthy, [undefined]
    is not. *)
Definition drawIfPresent (o : option Image) (xOffset w h : Q) (bg : string)
    : list CanvasOp :=
  match o with
  | Some img => drawImageFit img xOffset w h bg
  | None => []
  end.

(** [rect] is what [getBoundingClientRect] returns at the time of the call,
    [scroll] is [scrollRef.current] at the time of the call; [loadedImages]
    and [backgroundColor] are the values the callback closed over.  With
    [slideWidth = 0] the quotient is [NaN] or an infinity, [Math.floor]
    keeps it, and indexing the array by it gives [undefined] twice.  The
    quotient is exact here; [drawCurrentImages64] below rounds it as the
    code does. *)
Definition drawCurrentImages (rect : DOMRect) (scroll : Q)
    (loadedImages : list Image) (backgroundColor : string) : list CanvasOp :=
  let width := rect_width rect in
  let height := rect_height rect in
  ClearRect 0 0 width height ::
  let slideWidth := width in
  if Qeq_bool slideWidth 0 then []
  else
    let slideIndex := Qfloor (scroll / slideWidth) in
    let offset := JS.rem scroll slideWidth in
    let current := JS.get loadedImages slideIndex in
    let next := JS.get loadedImages (slideIndex + 1) in
    drawIfPresent current (- offset) width height backgroundColor ++
    drawIfPresent next (width - offset) width height backgroundColor.

(** ** The component's state *)

(** A promise: pending, fulfilled with a value, or rejected. *)
Inductive Promise (A : Type) : Type :=
| Pending
| Fulfilled (a : A)
| Rejected.
Arguments Pending {A}.
Arguments Fulfilled {A} a.
Arguments Rejected {A}.

(** One [new Promise(...)] of lines 85-90: the image element created for
    [slot_src], and whether [onload] or [onerror] has settled it. *)
Record LoadSlot : Type := mkSlot {
  slot_src : string;
  slot_state : Promise Image
}.

(** One call of [loadImages]: the per-source promises in the order of
    [images], and the [Promise.all] over them that the call awaits. *)
Record LoadRequest : Type := mkRequest {
  req_slots : list LoadSlot;
  req_all : Promise (list Image)
}.

(** The callback of line 145, queued by [requestAnimationFrame]: it closed
    over [drawCurrentImages], hence over the [loadedImages] and
    [backgroundColor] of the render that created it. *)
Record FrameCallback : Type := mkCallback {
  cb_id : nat;
  cb_loadedImages : list Image;
  cb_backgroundColor : string
}.

Record State : Type := mkState {
  (* props *)
  images : list string;
  backgroundColor : string;
  (* useState *)
  loadedImages : list Image;
  isDragging : bool;
  (* useRef *)
  startXRef : Q;                      (* X-coordinate at drag start *)
  scrollRef : Q;                      (* Total horizontal scroll (pixels) *)
  animationFrame : option nat;        (* null, or the id of the requested frame *)
  (* the page around the component *)
  rect : DOMRect;                     (* canvas.getBoundingClientRect() *)
  devicePixelRatio : Q;               (* window.devicePixelRatio *)
  canvasLog : list CanvasOp;          (* calls made on the canvas and its context *)
  resizeListener : option Q;          (* the installed resizeCanvas, by the dpr it closed over *)
  frameQueue : list FrameCallback;    (* callbacks waiting for the next frame *)
  nextFrameId : nat;                  (* the id requestAnimationFrame returns next *)
  loads : list LoadRequest            (* the loadImages calls so far, oldest first *)
}.

Definition set_images (v : list string) (s : State) : State :=
  mkState v (backgroundColor s) (loadedImages s) (isDragging s) (startXRef s)
    (scrollRef s) (animationFrame s) (rect s) (devicePixelRatio s) (canvasLog s)
    (resizeListener s) (frameQueue s) (nextFrameId s) (loads s).

Definition set_backgroundColor (v : string) (s : State) : State :=
  mkState (images s) v (loadedImages s) (isDragging s) (startXRef s)
    (scrollRef s) (animationFrame s) (rect s) (devicePixelRatio s) (canvasLog s)
    (resizeListener s) (frameQueue s) (nextFrameId s) (loads s).

Definition set_loadedImages (v : list Image) (s : State) : State :=
  mkState (images s) (backgroundColor s) v (isDragging s) (startXRef s)
    (scrollRef s) (animationFrame s) (rect s) (devicePixelRatio s) (canvasLog s)
    (resizeListener s) (frameQueue s) (nextFrameId s) (loads s).

Definition set_isDragging (v : bool) (s : State) : State :=
  mkState (images s) (backgroundColor s) (loadedImages s) v (startXRef s)
    (scrollRef s) (animationFrame s) (rect s) (devicePixelRatio s) (canvasLog s)
    (resizeListener s) (frameQueue s) (nextFrameId s) (loads s).

Definition set_startXRef (v : Q) (s : State) : State :=
  mkState (images s) (backgroundColor s) (loadedImages s) (isDragging s) v
    (scrollRef s) (animationFrame s) (rect s) (devicePixelRatio s) (canvasLog s)
    (resizeListener s) (frameQueue s) (nextFrameId s) (loads s).

Definition set_scrollRef (v : Q) (s : State) : State :=
  mkState (images s) (backgroundColor s) (loadedImages s) (isDragging s) (startXRef s)
    v (animationFrame s) (rect s) (devicePixelRatio s) (canvasLog s)
    (resizeListener s) (frameQueue s) (nextFrameId s) (loads s).

Definition set_animationFrame (v : option nat) (s : State) : State :=
  mkState (images s) (backgroundColor s) (loadedImages s) (isDragging s) (startXRef s)
    (scrollRef s) v (rect s) (devicePixelRatio s) (canvasLog s)
    (resizeListener s) (frameQueue s) (nextFrameId s) (loads s).

Definition set_rect (v : DOMRect) (s : State) : State :=
  mkState (images s) (backgroundColor s) (loadedImages s) (isDragging s) (startXRef s)
    (scrollRef s) (animationFrame s) v (devicePixelRatio s) (canvasLog s)
    (resizeListener s) (frameQueue s) (nextFrameId s) (loads s).

Definition set_devicePixelRatio (v : Q) (s : State) : State :=
  mkState (images s) (backgroundColor s) (loadedImages s) (isDragging s) (startXRef s)
    (scrollRef s) (animationFrame s) (rect s) v (canvasLog s)
    (resizeListener s) (frameQueue s) (nextFrameId s) (loads s).

Definition set_canvasLog (v : list CanvasOp) (s : State) : State :=
  mkState (images s) (backgroundColor s) (loadedImages s) (isDragging s) (startXRef s)
    (scrollRef s) (animationFrame s) (rect s) (devicePixelRatio s) v
    (resizeListener s) (frameQueue s) (nextFrameId s) (loads s).

Definition set_resizeListener (v : option Q) (s : State) : State :=
  mkState (images s) (backgroundColor s) (loadedImages s) (isDragging s) (startXRef s)
    (scrollRef s) (animationFrame s) (rect s) (devicePixelRatio s) (canvasLog s)
    v (frameQueue s) (nextFrameId s) (loads s).

Definition set_frameQueue (v : list FrameCallback) (s : State) : State :=
  mkState (images s) (backgroundColor s) (loadedImages s) (isDragging s) (startXRef s)
    (scrollRef s) (animationFrame s) (rect s) (devicePixelRatio s) (canvasLog s)
    (resizeListener s) v (nextFrameId s) (loads s).

Definition set_nextFrameId (v : nat) (s : State) : State :=
  mkState (images s) (backgroundColor s) (loadedImages s) (isDragging s) (startXRef s)
    (scrollRef s) (animationFrame s) (rect s) (devicePixelRatio s) (canvasLog s)
    (resizeListener s) (frameQueue s) v (loads s).

Definition set_loads (v : list LoadRequest) (s : State) : State :=
  mkState (images s) (backgroundColor s) (loadedImages s) (isDragging s) (startXRef s)
    (scrollRef s) (animationFrame s) (rect s) (devicePixelRatio s) (canvasLog s)
    (resizeListener s) (frameQueue s) (nextFrameId s) v.

(** Calls on the canvas are appended to the log. *)
Definition draw (ops : list CanvasOp) (s : State) : State :=
  set_canvasLog (canvasLog s ++ ops) s.

(** [!loadedImages.length] *)
Definition noImages (s : State) : bool :=
  (List.length (loadedImages s) =? 0)%nat.

(** The [cursor] style of the canvas (line 175). *)
Definition cursor (s : State) : string :=
  if isDragging s then "grabbing"%string else "grab"%string.

(** ** The resize effect (lines 101-121) *)

(** [resizeCanvas], with the [dpr] its effect read. *)
Definition resizeCanvas (dpr : Q) (s : State) : State :=
  let r := rect s in
  draw ([ SetCanvasWidth (rect_width r * dpr);
          SetCanvasHeight (rect_height r * dpr);
          SetTransform 1 0 0 1 0 0;
          Scale dpr dpr ]
        ++ drawCurrentImages r (scrollRef s) (loadedImages s) (backgroundColor s)) s.

(** The effect body, run after a render in which [loadedImages] or
    [drawCurrentImages] (that is, [backgroundColor]) changed: the previous
    listener is removed by the previous run's cleanup; with no image the
    effect returns early, otherwise it reads the pixel ratio, resizes once
    and installs [resizeCanvas]. *)
Definition resizeEffect (s : State) : State :=
  if noImages s then set_resizeListener None s
  else
    let dpr := JS.or1 (devicePixelRatio s) in
    set_resizeListener (Some dpr) (resizeCanvas dpr s).

(** [setLoadedImages(loaded)]: the state changes, the component renders
    again and the effects that depend on [loadedImages] run. *)
Definition setLoadedImages (loaded : list Image) (s : State) : State :=
  resizeEffect (set_loadedImages loaded s).

(** The window's [resize] event, after layout gave the canvas the rectangle
    [r]. *)
Definition windowResize (r : DOMRect) (s : State) : State :=
  let s := set_rect r s in
  match resizeListener s with
  | Some dpr => resizeCanvas dpr s
  | None => s
  end.

(** ** The preloader (lines 80-97) *)

(** [Promise.all] resolves with the values in the order of its input. *)
Fixpoint allFulfilled (slots : list LoadSlot) : option (list Image) :=
  match slots with
  | [] => Some []
  | sl :: rest =>
      match slot_state sl, allFulfilled rest with
      | Fulfilled img, Some imgs => Some (img :: imgs)
      | _, _ => None
      end
  end.

Fixpoint list_set {A : Type} (i : nat) (v : A) (l : list A) : list A :=
  match l, i with
  | [], _ => []
  | _ :: rest, O => v :: rest
  | x :: rest, S j => x :: list_set j v rest
  end.

(** How an image element settles: [onload] with the intrinsic size the
    decoder found, or [onerror]. *)
Inductive Outcome : Type :=
| Loaded (w h : Q)
| Failed.

(** Settling promise [i] of a request.  A promise settles once, so an
    event on a settled slot changes nothing.  The result carries the value
    [Promise.all] resolves with when this event is the one that resolves
    it; a rejection rejects [Promise.all], and a rejected or resolved
    [Promise.all] ignores what follows. *)
Definition settle (req : LoadRequest) (i : nat) (o : Outcome)
    : LoadRequest * option (list Image) :=
  match nth_error (req_slots req) i with
  | Some (mkSlot s Pending) =>
      match o with
      | Loaded w h =>
          let slots := list_set i (mkSlot s (Fulfilled (mkImage s w h))) (req_slots req) in
          match req_all req, allFulfilled slots with
          | Pending, Some imgs => (mkRequest slots (Fulfilled imgs), Some imgs)
          | all, _ => (mkRequest slots all, None)
          end
      | Failed =>
          let slots := list_set i (mkSlot s Rejected) (req_slots req) in
          match req_all req with
          | Pending => (mkRequest slots Rejected, None)
          | all => (mkRequest slots all, None)
          end
      end
  | _ => (req, None)
  end.

(** [loadImages()] for the sources [srcs]: one promise per source, all
    started at once, and the [Promise.all] over them.  [Promise.all([])]
    is resolved with [[]] without waiting for any event, and line 93 runs
    right away. *)
Definition loadImages (srcs : list string) (s : State) : State :=
  match srcs with
  | [] =>
      setLoadedImages []
        (set_loads (loads s ++ [mkRequest [] (Fulfilled [])]) s)
  | _ =>
      set_loads
        (loads s ++ [mkRequest (map (fun x => mkSlot x Pending) srcs) Pending]) s
  end.

(** An image of request [r] settles; when that resolves the request's
    [Promise.all], the [await] of line 82 continues with line 93.  A
    rejection makes the [await] throw, and line 93 is not reached. *)
Definition imageSettled (r i : nat) (o : Outcome) (s : State) : State :=
  match nth_error (loads s) r with
  | None => s
  | Some req =>
      let (req', resolved) := settle req i o in
      let s := set_loads (list_set r req' (loads s)) s in
      match resolved with
      | Some loaded => setLoadedImages loaded s
      | None => s
      end
  end.

(** ** The drag handlers (lines 124-165) *)

Definition handleMouseDown (clientX : Q) (s : State) : State :=
  set_startXRef clientX (set_isDragging true s).

(** [requestAnimationFrame(() => { drawCurrentImages(ctx); ... })] and the
    assignment of its id to [animationFrame.current]. *)
Definition requestFrame (s : State) : State :=
  let id := nextFrameId s in
  set_animationFrame (Some id)
    (set_nextFrameId (S id)
      (set_frameQueue
        (frameQueue s ++ [mkCallback id (loadedImages s) (backgroundColor s)]) s)).

Definition handleMouseMove (clientX : Q) (s : State) : State :=
  if negb (isDragging s) || noImages s then s
  else
    let width := rect_width (rect s) in
    let dx := clientX - startXRef s in
    let s := set_startXRef clientX s in
    let maxScroll := (JS.length (loadedImages s) - 1) * width in
    let s := set_scrollRef (Qmax 0 (Qmin (scrollRef s - dx) maxScroll)) s in
    (* Limit to one animation frame per draw cycle *)
    match animationFrame s with
    | None => requestFrame s
    | Some _ => s
    end.

Definition handleMouseUp (s : State) : State :=
  set_isDragging false s.

(** The queued callback when its frame comes: it draws with the scroll
    offset and rectangle of that moment and clears [animationFrame]. *)
Definition runCallback (s : State) (cb : FrameCallback) : State :=
  set_animationFrame None
    (draw (drawCurrentImages (rect s) (scrollRef s)
             (cb_loadedImages cb) (cb_backgroundColor cb)) s).

(** A display frame: the browser runs the callbacks queued for it. *)
Definition animationFrameTick (s : State) : State :=
  fold_left runCallback (frameQueue s) (set_frameQueue [] s).

(** ** The slide index in binary64 (lines 66-68 and 140-141) *)

Module JS64.

(** The rational a binary64 number stands for, in lowest terms; [None]
    for [NaN] and the infinities. *)
Definition value (x : float) : option Q :=
  match Prim2SF x with
  | S754_zero _ => Some 0
  | S754_finite s m e =>
      let v := Qred (inject_Z (Zpos m) * 2 ^ e) in
      Some (if s then - v else v)
  | _ => None
  end.

(** [Math.floor(x)] of a finite number. *)
Definition floor (x : float) : option Z := option_map Qfloor (value x).



(** [arr.length] as a number. *)
Definition length {A : Type} (arr : list A) : float :=
  of_uint63 (Uint63.of_Z (Z.of_nat (List.length arr))).

End JS64.

(** [drawCurrentImages] on binary64 numbers.  The quotient of line 67 is
    the rounded one ([/] on [float]); the remainder of line 68 is exact,
    as [%] is in binary64; the subtraction [width - offset] and the
    arithmetic of [drawImageFit] are left exact, where rounding moves a
    coordinate by a last digit and no more.  [None] stands for a
    rectangle or an offset that is not finite; a quotient that is not
    finite, or a width of zero, indexes the array by [NaN] or an
    infinity. *)
Definition drawCurrentImages64 (width height scroll : float)
    (loadedImages : list Image) (backgroundColor : string)
    : option (list CanvasOp) :=
  match JS64.value width, JS64.value height, JS64.value scroll with
  | Some w, Some h, Some o =>
      let slideWidth := width in
      match JS64.floor (scroll / slideWidth)%float with
      | Some slideIndex =>
          if Qeq_bool w 0 then Some [ClearRect 0 0 w h]
          else
            let offset := JS.rem o w in
            let current := JS.get loadedImages slideIndex in
            let next := JS.get loadedImages (slideIndex + 1) in
            Some (ClearRect 0 0 w h ::
                  drawIfPresent current (- offset) w h backgroundColor ++
                  drawIfPresent next (w - offset) w h backgroundColor)
      | None => Some [ClearRect 0 0 w h]
      end
  | _, _, _ => None
  end.


(** ** Events and runs *)

(** A prop event stands for a render in which the prop's value differs
    from the previous one (for [images], a new array): React re-runs an
    effect only when one of its dependencies has changed. *)
Inductive Event : Type :=
| ImagesChanged (srcs : list string)          (* the parent passes a new [images] *)
| BackgroundChanged (color : string)          (* the parent passes a new [backgroundColor] *)
| ImageSettled (request index : nat) (o : Outcome)   (* onload / onerror of one image *)
| MouseDown (clientX : Q)                     (* mousedown on the canvas *)
| MouseMove (clientX : Q)                     (* mousemove on the window *)
| MouseUp                                     (* mouseup on the window *)
| WindowResized (r : DOMRect)                 (* resize, the canvas now measuring [r] *)
| PixelRatioChanged (d : Q)                   (* window.devicePixelRatio becomes [d] *)
| AnimationFrame.                             (* the next display frame *)

Definition step (s : State) (e : Event) : State :=
  match e with
  | ImagesChanged srcs => loadImages srcs (set_images srcs s)
  | BackgroundChanged color => resizeEffect (set_backgroundColor color s)
  | ImageSettled r i o => imageSettled r i o s
  | MouseDown x => handleMouseDown x s
  | MouseMove x => handleMouseMove x s
  | MouseUp => handleMouseUp s
  | WindowResized r => windowResize r s
  | PixelRatioChanged d => set_devicePixelRatio d s
  | AnimationFrame => animationFrameTick s
  end.

Definition run (s : State) (es : list Event) : State := fold_left step es s.

(** The states after each event of a run, in order. *)
Fixpoint states (s : State) (es : list Event) : list State :=
  match es with
  | [] => []
  | e :: rest => step s e :: states (step s e) rest
  end.

(** The first render: nothing loaded, not dragging, refs at their initial
    values, an untouched canvas measuring [r]. *)
Definition firstRender (imgs : list string) (bg : string) (r : DOMRect) (dpr : Q)
    : State :=
  mkState imgs bg [] false 0 0 None r dpr [] None [] 1%nat [].

(** The first render and its effects: [loadImages] is started for the
    [images] prop; the resize effect returns early; the mouse listeners
    are installed. *)
Definition mount (imgs : list string) (bg : string) (r : DOMRect) (dpr : Q) : State :=
  loadImages imgs (firstRender imgs bg r dpr).

(** What the page can deliver: rectangles have non-negative sides. *)
Definition rect_ok (r : DOMRect) : bool :=
  Qle_bool 0 (rect_width r) && Qle_bool 0 (rect_height r).

Definition event_ok (e : Event) : bool :=
  match e with
  | WindowResized r => rect_ok r
  | _ => true
  end.

Inductive reachable : State -> Prop :=
| reach_mount : forall imgs bg r dpr,
    rect_ok r = true -> reachable (mount imgs bg r dpr)
| reach_step : forall s e,
    reachable s -> event_ok e = true -> reachable (step s e).

(** * Vocabulary of the specification *)

(** The draw rectangle lies inside the target rectangle of the given size
    (both taken relative to the target's origin). *)
Definition contained (r : DrawRect) (w h : Q) : Prop :=
  0 <= drawX r /\ drawX r + drawWidth r <= w /\
  0 <= drawY r /\ drawY r + drawHeight r <= h.

(** The slack is split evenly on both axes. *)
Definition centered (r : DrawRect) (w h : Q) : Prop :=
  drawX r == (w - drawWidth r) / 2 /\ drawY r == (h - drawHeight r) / 2.

Definition fills_width (r : DrawRect) (w : Q) : Prop := drawWidth r == w.
Definition fills_height (r : DrawRect) (h : Q) : Prop := drawHeight r == h.

(** The rectangle touches both edges of the target on one axis and not on
    the other. *)
Definition fills_exactly_one_axis (r : DrawRect) (w h : Q) : Prop :=
  (fills_width r w /\ ~ fills_height r h) \/
  (~ fills_width r w /\ fills_height r h).

Definition keeps_ratio (img : Image) (r : DrawRect) : Prop :=
  drawWidth r / drawHeight r == width img / height img.

(** [maxScroll] of [handleMouseMove], for the images and the rectangle of
    a state. *)
Definition maxScroll (s : State) : Q :=
  (JS.length (loadedImages s) - 1) * rect_width (rect s).

Definition scroll_in_range (s : State) : Prop :=
  0 <= scrollRef s /\ scrollRef s <= maxScroll s.

(** A request is superseded when a later [loadImages] call exists. *)
Definition superseded (s : State) (r : nat) : Prop :=
  (S r < List.length (loads s))%nat.

(** Redraw requests and the [animationFrame] ref agree: none pending and
    the ref is [null], or one pending and the ref holds its id. *)
Definition one_frame_pending (s : State) : Prop :=
  match animationFrame s, frameQueue s with
  | None, [] => True
  | Some id, [cb] => cb_id cb = id
  | _, _ => False
  end.

(** The resize listener is installed exactly when an image is loaded. *)
Definition listener_installed (s : State) : Prop :=
  match resizeListener s with
  | Some _ => loadedImages s <> []
  | None => loadedImages s = []
  end.

(** The calls [resizeCanvas] makes, for the rectangle [r], the pixel ratio
    [dpr] it closed over, and the state it runs in. *)
Definition resizeCalls (r : DOMRect) (dpr : Q) (s : State) : list CanvasOp :=
  [ SetCanvasWidth (rect_width r * dpr);
    SetCanvasHeight (rect_height r * dpr);
    SetTransform 1 0 0 1 0 0;
    Scale dpr dpr ]
  ++ drawCurrentImages r (scrollRef s) (loadedImages s) (backgroundColor s).

(** A request receiving a sequence of [onload] / [onerror] events, each
    given by the index of its image; the second component is the value the
    request's [Promise.all] was resolved with along the way, if it was. *)
Fixpoint settles (req : LoadRequest) (es : list (nat * Outcome))
    : LoadRequest * option (list Image) :=
  match es with
  | [] => (req, None)
  | (i, o) :: rest =>
      let (req1, r1) := settle req i o in
      let (req2, r2) := settles req1 rest in
      (req2, match r2 with Some l => Some l | None => r1 end)
  end.

(** The events of request [r] as events of the component. *)
Definition settleEvents (r : nat) (es : list (nat * Outcome)) : list Event :=
  map (fun e => ImageSettled r (fst e) (snd e)) es.

(** The request [loadImages] starts for a non-empty list of sources. *)
Definition freshRequest (srcs : list string) : LoadRequest :=
  mkRequest (map (fun x => mkSlot x Pending) srcs) Pending.

(** The image element of source number [i] once loaded with the intrinsic
    size [(w i, h i)]. *)
Definition loadedImage (srcs : list string) (w h : nat -> Q) (i : nat) : Image :=
  mkImage (nth i srcs EmptyString) (w i) (h i).

(** The slots of a request for [srcs] in which exactly the images whose
    index is in [done] have loaded. *)
Definition slotsAfter (srcs : list string) (w h : nat -> Q) (done : list nat)
    : list LoadSlot :=
  map (fun i => mkSlot (nth i srcs EmptyString)
                  (if existsb (Nat.eqb i) done
                   then Fulfilled (loadedImage srcs w h i)
                   else Pending))
      (seq 0 (List.length srcs)).

(** ** Vocabulary of the further properties *)

(** The horizontal extent [(left, right)] of every [fillRect] of a log. *)
Fixpoint fillSpans (ops : list CanvasOp) : list (Q * Q) :=
  match ops with
  | [] => []
  | FillRect x _ w _ :: rest => (x, x + w) :: fillSpans rest
  | _ :: rest => fillSpans rest
  end.


(** Two draw rectangles with equal numbers. *)
Definition DrawRect_eq (r1 r2 : DrawRect) : Prop :=
  drawX r1 == drawX r2 /\ drawY r1 == drawY r2 /\
  drawWidth r1 == drawWidth r2 /\ drawHeight r1 == drawHeight r2.

(** A draw rectangle with every number multiplied by [k]. *)
Definition scaleRect (k : Q) (r : DrawRect) : DrawRect :=
  mkDrawRect (k * drawX r) (k * drawY r) (k * drawWidth r) (k * drawHeight r).

(** The button state after a run of events: the last [mousedown] or
    [mouseup] decides, and [b] stands when there is none. *)
Definition buttonState (b : bool) (es : list Event) : bool :=
  fold_left (fun b e => match e with
                        | MouseDown _ => true
                        | MouseUp => false
                        | _ => b
                        end) es b.

Definition isMouseDown (e : Event) : bool :=
  match e with MouseDown _ => true | _ => false end.

(** What a call on the context may do to the transform: reset it to the
    identity, or scale it by the same non-zero factor on both axes. *)
Definition transform_ok (op : CanvasOp) : Prop :=
  match op with
  | SetTransform a b c d e f =>
      a == 1 /\ b == 0 /\ c == 0 /\ d == 1 /\ e == 0 /\ f == 0
  | Scale x y => x = y /\ ~ x == 0
  | _ => True
  end.

(** The horizontal extent of every [drawImage] of a log. *)
Fixpoint drawnSpans (ops : list CanvasOp) : list (Q * Q) :=
  match ops with
  | [] => []
  | DrawImage _ x _ w _ :: rest => (x, x + w) :: drawnSpans rest
  | _ :: rest => drawnSpans rest
  end.

(** The span [inner] lies within the span [outer]. *)
Definition within (inner outer : Q * Q) : Prop :=
  fst outer <= fst inner /\ snd inner <= snd outer.

(** The only fill style a call may set is [color]. *)
Definition fill_ok (color : string) (op : CanvasOp) : Prop :=
  match op with
  | SetFillStyle c => c = color
  | _ => True
  end.

Definition isBackgroundChanged (e : Event) : bool :=
  match e with BackgroundChanged _ => true | _ => false end.

(** * Example pages *)

(** ** The page of [src/App.tsx] *)

Module App.

(** The [images] prop [App] passes; the canvas sits in a 640px by 400px
    box. *)
Definition images : list string :=
  [ "/images/0.jpg"; "/images/1.jpg"; "/images/2.jpg"; "/images/3.jpg" ]%string.

Definition mounted : State := mount images "#F2F2F2" (mkRect 640 400) 1.

(** The four images load, out of order; their sizes are examples. *)
Definition loaded : State :=
  run mounted
    [ ImageSettled 0 2 (Loaded 600 800); ImageSettled 0 0 (Loaded 1200 800);
      ImageSettled 0 3 (Loaded 1280 800); ImageSettled 0 1 (Loaded 800 600) ].

(** The user presses the button at x = 320. *)
Definition dragging : State := step loaded (MouseDown 320).

(** The user drags to the last slide and lets go; then the window shrinks
    and the canvas measures 320 by 200. *)
Definition shrunk : State :=
  run dragging [ MouseMove (-5000); MouseUp; WindowResized (mkRect 320 200) ].

(** Two moves within one display frame: to x = 200, then to x = 20. *)
Definition moved_twice : State := run dragging [ MouseMove 200; MouseMove 20 ].

(** After the images have loaded the display's pixel ratio becomes 2 (the
    user zooms, or the window moves to a denser screen). *)
Definition zoomed : State := step loaded (PixelRatioChanged 2).

(** The component before its first effects have run. *)
Definition initial : State := firstRender images "#F2F2F2" (mkRect 640 400) 1.

(** The third of the four images fails to load; the others load. *)
Definition third_fails : list (nat * Outcome) :=
  [ (0%nat, Loaded 1200 800); (3%nat, Loaded 1280 800);
    (2%nat, Failed); (1%nat, Loaded 800 600) ].

(** An image with the aspect ratio of the canvas. *)
Definition wide_image : Image := mkImage "/images/0.jpg" 1280 800.

End App.

(** ** A page that replaces the image list *)

Module Race.

(** The parent first passes one source, then another while the first is
    still loading; the second image arrives first. *)
Definition started : State :=
  mount ["/old.jpg"%string] "#F2F2F2" (mkRect 640 400) 1.

Definition replaced : State := step started (ImagesChanged ["/new.jpg"%string]).

Definition new_loaded : State := step replaced (ImageSettled 1 0 (Loaded 800 600)).

Definition old_loaded : State := step new_loaded (ImageSettled 0 0 (Loaded 640 480)).

End Race.

(** * Properties *)

(** ** Arithmetic helpers *)

Lemma gtb_true_iff (x y : Q) : JS.gtb x y = true <-> y < x.
Proof.
  unfold JS.gtb. rewrite negb_true_iff.
  split; intro H.
  - apply Qnot_le_lt. intro Hle. apply Qle_bool_iff in Hle. congruence.
  - destruct (Qle_bool x y) eqn:E; [|reflexivity].
    apply Qle_bool_iff in E. exfalso. apply (Qlt_not_le _ _ H E).
Qed.

Lemma gtb_false_iff (x y : Q) : JS.gtb x y = false <-> x <= y.
Proof.
  unfold JS.gtb. rewrite negb_false_iff. apply Qle_bool_iff.
Qed.

Lemma Qdiv_pos (a b : Q) : 0 < a -> 0 < b -> 0 < a / b.
Proof.
  intros Ha Hb. apply Qlt_shift_div_l; [assumption|]. lra.
Qed.

(** ** The image fitter *)

Section Fitter.

Variable img : Image.
Variables canvasWidth canvasHeight : Q.
Hypothesis img_w_pos : 0 < width img.
Hypothesis img_h_pos : 0 < height img.
Hypothesis canvas_w_pos : 0 < canvasWidth.
Hypothesis canvas_h_pos : 0 < canvasHeight.

Let imgRatio := width img / height img.
Let canvasRatio := canvasWidth / canvasHeight.

Lemma imgRatio_pos : 0 < imgRatio.
Proof. apply Qdiv_pos; assumption. Qed.

Lemma canvasRatio_mult : canvasRatio * canvasHeight == canvasWidth.
Proof. unfold canvasRatio. field. lra. Qed.

(** The wide branch: the width is filled, the height has slack. *)
Lemma fitRect_wide :
  canvasRatio < imgRatio ->
  fitRect img canvasWidth canvasHeight =
    mkDrawRect 0 ((canvasHeight - canvasWidth / imgRatio) / 2)
      canvasWidth (canvasWidth / imgRatio)
  /\ 0 < canvasWidth / imgRatio < canvasHeight.
Proof.
  intro Hlt. split.
  - unfold fitRect. fold imgRatio canvasRatio.
    apply gtb_true_iff in Hlt. rewrite Hlt. reflexivity.
  - pose proof imgRatio_pos as HR. pose proof canvasRatio_mult as HC.
    assert (HD : canvasWidth / imgRatio * imgRatio == canvasWidth)
      by (field; lra).
    assert (Hpos : 0 < canvasWidth / imgRatio) by (apply Qdiv_pos; assumption).
    split; [assumption|].
    set (D := canvasWidth / imgRatio) in *.
    set (C := canvasRatio) in *. set (R := imgRatio) in *.
    apply Qnot_le_lt. intro Hle.
    assert (H1 : canvasHeight * R <= D * R)
      by (apply Qmult_le_compat_r; lra).
    assert (H2 : C * canvasHeight < R * canvasHeight)
      by (apply Qmult_lt_compat_r; lra).
    lra.
Qed.

(** The other branch: the height is filled, the width has slack or is
    filled too. *)
Lemma fitRect_tall :
  imgRatio <= canvasRatio ->
  fitRect img canvasWidth canvasHeight =
    mkDrawRect ((canvasWidth - canvasHeight * imgRatio) / 2) 0
      (canvasHeight * imgRatio) canvasHeight
  /\ 0 < canvasHeight * imgRatio <= canvasWidth.
Proof.
  intro Hle. split.
  - unfold fitRect. fold imgRatio canvasRatio.
    apply gtb_false_iff in Hle. rewrite Hle. reflexivity.
  - pose proof imgRatio_pos as HR. pose proof canvasRatio_mult as HC.
    split.
    + apply Qmult_lt_0_compat; assumption.
    + assert (H1 : canvasHeight * imgRatio <= canvasHeight * canvasRatio).
      { rewrite !(Qmult_comm canvasHeight). apply Qmult_le_compat_r; lra. }
      lra.
Qed.

Lemma fitRect_tall_fills_width_iff :
  canvasHeight * imgRatio == canvasWidth <-> imgRatio == canvasRatio.
Proof.
  pose proof canvasRatio_mult as HC.
  split; intro H.
  - apply (Qmult_inj_r _ _ canvasHeight); [lra|]. lra.
  - rewrite H. lra.
Qed.

End Fitter.

(** C3 (as amended).  For an image and a target rectangle of positive
    sizes, [drawImageFit] draws the image in the rectangle [fitRect]
    computes, shifted by [xOffset] like the background fill; that rectangle
    lies inside the target, is centered in it, has the image's aspect
    ratio, and fills the target on at least one axis: on exactly one when
    the two aspect ratios differ, on both when they are equal. *)
Theorem drawImageFit_letterbox :
  forall (img : Image) (xOffset canvasWidth canvasHeight : Q) (bg : string),
    0 < width img -> 0 < height img -> 0 < canvasWidth -> 0 < canvasHeight ->
    let r := fitRect img canvasWidth canvasHeight in
    drawImageFit img xOffset canvasWidth canvasHeight bg =
      [ SetFillStyle bg;
        FillRect xOffset 0 canvasWidth canvasHeight;
        DrawImage img (drawX r + xOffset) (drawY r) (drawWidth r) (drawHeight r) ]
    /\ contained r canvasWidth canvasHeight
    /\ centered r canvasWidth canvasHeight
    /\ keeps_ratio img r
    /\ (~ width img / height img == canvasWidth / canvasHeight ->
        fills_exactly_one_axis r canvasWidth canvasHeight)
    /\ (width img / height img == canvasWidth / canvasHeight ->
        fills_width r canvasWidth /\ fills_height r canvasHeight).
Proof.
  intros img xOffset cw ch bg Hiw Hih Hcw Hch r.
  split; [reflexivity|].
  pose proof (imgRatio_pos img Hiw Hih) as HR.
  unfold contained, centered, keeps_ratio, fills_exactly_one_axis,
    fills_width, fills_height.
  destruct (Qlt_le_dec (cw / ch) (width img / height img)) as [Hlt | Hle].
  - destruct (fitRect_wide img cw ch) as [E [Hd0 Hd1]]; try assumption.
    subst r. rewrite E. cbn [drawX drawY drawWidth drawHeight].
    set (D := cw / (width img / height img)) in *.
    assert (Hhalf : (ch - D) / 2 == (ch - D) * (1 # 2)) by field.
    assert (Hzero : (cw - cw) / 2 == 0) by field.
    split; [|split; [|split; [|split]]].
    + rewrite Hhalf. repeat apply conj; lra.
    + rewrite Hzero. split; reflexivity.
    + unfold D. field. repeat apply conj; lra.
    + intros _. left. split; [reflexivity | lra].
    + intro Heq. lra.
  - destruct (fitRect_tall img cw ch) as [E [Hd0 Hd1]]; try assumption.
    assert (Hiff := fitRect_tall_fills_width_iff img cw ch Hch).
    subst r. rewrite E. cbn [drawX drawY drawWidth drawHeight].
    set (W := ch * (width img / height img)) in *.
    assert (Hhalf : (cw - W) / 2 == (cw - W) * (1 # 2)) by field.
    assert (Hzero : (ch - ch) / 2 == 0) by field.
    split; [|split; [|split; [|split]]].
    + rewrite Hhalf. repeat apply conj; lra.
    + rewrite Hzero. split; reflexivity.
    + unfold W. field. repeat apply conj; lra.
    + intros Hne. right. split; [|reflexivity].
      intro Hw. apply Hne. apply Hiff. exact Hw.
    + intro Heq. split; [|reflexivity]. apply Hiff. exact Heq.
Qed.

(** C3, witness: a 4:3 image in the 640 by 400 canvas. *)
Lemma drawImageFit_letterbox_witness :
  let img := mkImage "/images/0.jpg" 800 600 in
  let r := fitRect img 640 400 in
  contained r 640 400 /\ keeps_ratio img r /\ fills_exactly_one_axis r 640 400.
Proof.
  pose proof (drawImageFit_letterbox (mkImage "/images/0.jpg" 800 600)
                0 640 400 "#F2F2F2") as H.
  cbv zeta in H.
  destruct H as [_ [Hc [_ [Hr [H1 _]]]]];
    try (cbn; reflexivity).
  intros img r. repeat split; try apply Hc; try exact Hr.
  apply H1. cbn. intro Heq. discriminate Heq.
Defined.

(** C3, as the specification words it, fails: a 1280 by 800 image has the
    aspect ratio of the 640 by 400 canvas, and its draw rectangle is the
    whole canvas, touching the edges on both axes. *)
Lemma fitRect_fills_both_axes :
  ~ (forall img canvasWidth canvasHeight,
        0 < width img -> 0 < height img ->
        0 < canvasWidth -> 0 < canvasHeight ->
        fills_exactly_one_axis (fitRect img canvasWidth canvasHeight)
          canvasWidth canvasHeight).
Proof.
  intro H.
  specialize (H App.wide_image 640 400).
  destruct H as [[_ Hn] | [Hn _]]; try reflexivity.
  - apply Hn. reflexivity.
  - apply Hn. reflexivity.
Qed.

(** ** The render operation *)

Section SlideIndex.

Variables scroll slideWidth : Q.
Hypothesis slideWidth_pos : 0 < slideWidth.
Hypothesis scroll_nonneg : 0 <= scroll.

Lemma quotient_nonneg : 0 <= scroll / slideWidth.
Proof. apply Qle_shift_div_l; [assumption | lra]. Qed.

Lemma slideIndex_nonneg : (0 <= Qfloor (scroll / slideWidth))%Z.
Proof.
  change 0%Z with (Qfloor 0). apply Qfloor_resp_le. exact quotient_nonneg.
Qed.

Lemma slideIndex_upper (n : Z) :
  scroll <= (inject_Z n - 1) * slideWidth ->
  (Qfloor (scroll / slideWidth) <= n - 1)%Z.
Proof.
  intro Hmax.
  rewrite <- (Qfloor_Z (n - 1)). apply Qfloor_resp_le.
  apply Qle_shift_div_r; [assumption|].
  unfold Z.sub. rewrite inject_Z_plus.
  change (inject_Z (-1)) with (- (1)).
  assert (E : (inject_Z n + - (1)) * slideWidth == (inject_Z n - 1) * slideWidth)
    by ring.
  rewrite E. exact Hmax.
Qed.

(** On a non-negative offset the JavaScript remainder is the remainder of
    the floored division, and lies in [0, slideWidth). *)
Lemma rem_floor :
  JS.rem scroll slideWidth ==
    scroll - inject_Z (Qfloor (scroll / slideWidth)) * slideWidth.
Proof.
  unfold JS.rem, JS.trunc.
  destruct (Qle_bool 0 (scroll / slideWidth)) eqn:E.
  - ring.
  - exfalso. pose proof quotient_nonneg as H.
    apply Qle_bool_iff in H. congruence.
Qed.

Lemma floor_remainder_range :
  0 <= scroll - inject_Z (Qfloor (scroll / slideWidth)) * slideWidth
  /\ scroll - inject_Z (Qfloor (scroll / slideWidth)) * slideWidth < slideWidth.
Proof.
  pose proof (Qfloor_le (scroll / slideWidth)) as Hlo.
  pose proof (Qlt_floor (scroll / slideWidth)) as Hhi.
  rewrite inject_Z_plus in Hhi. change (inject_Z 1) with 1 in Hhi.
  assert (Hq : scroll / slideWidth * slideWidth == scroll) by (field; lra).
  generalize dependent (inject_Z (Qfloor (scroll / slideWidth))). intro i.
  generalize dependent (scroll / slideWidth). intros q Hq Hlo Hhi.
  assert (H1 : i * slideWidth <= q * slideWidth)
    by (apply Qmult_le_compat_r; lra).
  assert (H2 : q * slideWidth < (i + 1) * slideWidth)
    by (apply Qmult_lt_compat_r; lra).
  assert (H3 : (i + 1) * slideWidth == i * slideWidth + slideWidth) by ring.
  split; lra.
Qed.

End SlideIndex.

Lemma get_in_range {A : Type} (arr : list A) (i : Z) :
  (0 <= i)%Z -> JS.get arr i = nth_error arr (Z.to_nat i).
Proof.
  intro H. unfold JS.get.
  destruct (i <? 0)%Z eqn:E; [|reflexivity].
  apply Z.ltb_lt in E. lia.
Qed.

Lemma drawCurrentImages_positive_width rect scroll loadedImages bg :
  0 < rect_width rect ->
  drawCurrentImages rect scroll loadedImages bg =
    ClearRect 0 0 (rect_width rect) (rect_height rect) ::
    drawIfPresent (JS.get loadedImages (Qfloor (scroll / rect_width rect)))
      (- JS.rem scroll (rect_width rect)) (rect_width rect) (rect_height rect) bg ++
    drawIfPresent (JS.get loadedImages (Qfloor (scroll / rect_width rect) + 1))
      (rect_width rect - JS.rem scroll (rect_width rect))
      (rect_width rect) (rect_height rect) bg.
Proof.
  intro Hw. unfold drawCurrentImages.
  destruct (Qeq_bool (rect_width rect) 0) eqn:E; [|reflexivity].
  apply Qeq_bool_iff in E. lra.
Qed.

(** In exact arithmetic.  With a positive slide width and a scroll offset
    between 0 and [(N-1) * slideWidth], [drawCurrentImages] clears the
    canvas and draws
    the slide at index [floor (scroll / slideWidth)], which exists, at
    [-(offset)], where [offset] is the remainder of that division; it then
    draws the slide at the next index at [slideWidth - offset] when that
    index is below [N], and nothing else when it is not.  With slide width
    640, four slides and scroll offset 700 it draws slide 1 at -60 and
    slide 2 at 580. *)
Theorem drawCurrentImages_current_and_next :
  (forall (rect : DOMRect) (scroll : Q) (loadedImages : list Image) (bg : string),
      let slideWidth := rect_width rect in
      let height := rect_height rect in
      let N := Z.of_nat (List.length loadedImages) in
      0 < slideWidth ->
      0 <= scroll -> scroll <= (inject_Z N - 1) * slideWidth ->
      let slideIndex := Qfloor (scroll / slideWidth) in
      let offset := scroll - inject_Z slideIndex * slideWidth in
      (0 <= slideIndex < N)%Z /\
      (0 <= offset /\ offset < slideWidth) /\
      exists (current : Image) (x0 x1 : Q),
        nth_error loadedImages (Z.to_nat slideIndex) = Some current /\
        x0 == - offset /\ x1 == slideWidth - offset /\
        ((slideIndex + 1 < N)%Z <->
           nth_error loadedImages (Z.to_nat (slideIndex + 1)) <> None) /\
        drawCurrentImages rect scroll loadedImages bg =
          ClearRect 0 0 slideWidth height ::
          drawImageFit current x0 slideWidth height bg ++
          match nth_error loadedImages (Z.to_nat (slideIndex + 1)) with
          | Some next => drawImageFit next x1 slideWidth height bg
          | None => []
          end)
  /\
  (forall (a b c d : Image) (height : Q) (bg : string),
      exists x0 x1 : Q,
        x0 == - (60) /\ x1 == 580 /\
        drawCurrentImages (mkRect 640 height) 700 [a; b; c; d] bg =
          ClearRect 0 0 640 height ::
          drawImageFit b x0 640 height bg ++ drawImageFit c x1 640 height bg).
Proof.
  split.
  - intros rect scroll imgs bg w h N Hw H0 Hmax i offset.
    pose proof (slideIndex_nonneg scroll w Hw H0) as Hi0.
    pose proof (slideIndex_upper scroll w Hw N Hmax) as Hi1.
    fold i in Hi0, Hi1.
    split; [lia|]. split; [exact (floor_remainder_range scroll w Hw)|].
    assert (Hlt : (Z.to_nat i < List.length imgs)%nat) by (subst N; lia).
    destruct (nth_error imgs (Z.to_nat i)) as [current|] eqn:Ecur;
      [| apply nth_error_None in Ecur; lia].
    exists current, (- JS.rem scroll w), (w - JS.rem scroll w).
    split; [reflexivity|].
    pose proof (rem_floor scroll w Hw H0) as Hrem. fold i in Hrem.
    split; [subst offset; rewrite Hrem; reflexivity|].
    split; [subst offset; rewrite Hrem; reflexivity|].
    split.
    + rewrite nth_error_Some. subst N. lia.
    + rewrite (drawCurrentImages_positive_width rect scroll imgs bg Hw).
      fold w h i.
      rewrite !get_in_range by lia. rewrite Ecur. reflexivity.
  - intros a b c d h bg.
    exists (- JS.rem 700 640), (640 - JS.rem 700 640).
    split; [reflexivity|]. split; reflexivity.
Qed.

(** The scenario of the specification on four images, in exact
    arithmetic. *)
Lemma drawCurrentImages_current_and_next_witness :
  let imgs := [ mkImage "/images/0.jpg" 800 600; mkImage "/images/1.jpg" 800 600;
                mkImage "/images/2.jpg" 600 800; mkImage "/images/3.jpg" 800 600 ] in
  0 < 640 /\ 0 <= 700 /\ 700 <= (4 - 1) * 640 /\
  (0 <= Qfloor (700 / 640) < 4)%Z /\
  exists current x0 x1,
    nth_error imgs 1 = Some current /\ x0 == - (60) /\ x1 == 580 /\
    drawCurrentImages (mkRect 640 400) 700 imgs "#F2F2F2" =
      ClearRect 0 0 640 400 ::
      drawImageFit current x0 640 400 "#F2F2F2" ++
      match nth_error imgs 2 with
      | Some next => drawImageFit next x1 640 400 "#F2F2F2"
      | None => []
      end.
Proof.
  intro imgs.
  assert (Hw : 0 < 640) by reflexivity.
  assert (H0 : 0 <= 700) by (intro H; discriminate H).
  assert (Hmax : 700 <= (4 - 1) * 640) by (intro H; discriminate H).
  destruct (proj1 drawCurrentImages_current_and_next
              (mkRect 640 400) 700 imgs "#F2F2F2"%string Hw H0 Hmax)
    as [Hi [_ [current [x0 [x1 [Hcur [Hx0 [Hx1 [_ Hdraw]]]]]]]]].
  repeat split; try assumption; try apply Hi.
  exists current, x0, x1.
  repeat split; assumption.
Defined.

(** ** The render operation in binary64 *)

(** Where flooring the rounded quotient gives the floor of the exact one,
    the binary64 drawing is the exact one. *)
Lemma drawCurrentImages64_exact (width height scroll : float) (w h o : Q)
    (loadedImages : list Image) (bg : string) :
  JS64.value width = Some w -> JS64.value height = Some h ->
  JS64.value scroll = Some o ->
  JS64.floor (scroll / width)%float = Some (Qfloor (o / w)) ->
  drawCurrentImages64 width height scroll loadedImages bg =
    Some (drawCurrentImages (mkRect w h) o loadedImages bg).
Proof.
  intros Hw Hh Ho Hi. unfold drawCurrentImages64, drawCurrentImages.
  rewrite Hw, Hh, Ho, Hi. cbn [rect_width rect_height].
  destruct (Qeq_bool w 0); reflexivity.
Qed.

(** The scenario of the specification in binary64: 640 wide, four slides,
    offset 700.  The rounded quotient is 1.09375, as the exact one is. *)
Lemma drawCurrentImages64_scenario :
  forall (a b c d : Image) (bg : string),
    exists x0 x1 : Q,
      x0 == - (60) /\ x1 == 580 /\
      drawCurrentImages64 640 400 700 [a; b; c; d] bg =
        Some (ClearRect 0 0 640 400 ::
              drawImageFit b x0 640 400 bg ++ drawImageFit c x1 640 400 bg).
Proof.
  intros a b c d bg.
  assert (Ew : JS64.value 640 = Some 640) by (vm_compute; reflexivity).
  assert (Eh : JS64.value 400 = Some 400) by (vm_compute; reflexivity).
  assert (Eo : JS64.value 700 = Some 700) by (vm_compute; reflexivity).
  assert (Ei : JS64.floor (700 / 640)%float = Some (Qfloor (700 / 640)))
    by (vm_compute; reflexivity).
  rewrite (drawCurrentImages64_exact 640 400 700 640 400 700 [a; b; c; d] bg
             Ew Eh Eo Ei).
  destruct (proj2 drawCurrentImages_current_and_next a b c d 400 bg)
    as (x0 & x1 & H0 & H1 & E).
  exists x0, x1. rewrite E. repeat split; assumption.
Qed.



(** ** The drag controller *)

Lemma clamp_range (x m : Q) :
  0 <= m -> 0 <= Qmax 0 (Qmin x m) /\ Qmax 0 (Qmin x m) <= m.
Proof.
  intro Hm. split.
  - apply Q.le_max_l.
  - apply Q.max_lub; [assumption | apply Q.le_min_r].
Qed.

Lemma noImages_false_iff (s : State) : noImages s = false <-> loadedImages s <> [].
Proof.
  unfold noImages. destruct (loadedImages s); cbn; split; congruence.
Qed.

Lemma noImages_true_iff (s : State) : noImages s = true <-> loadedImages s = [].
Proof.
  unfold noImages. destruct (loadedImages s); cbn; split; congruence.
Qed.

(** What an effective [mousemove] does to every field. *)
Lemma handleMouseMove_dragging (x : Q) (s : State) :
  isDragging s = true -> loadedImages s <> [] ->
  let s1 := set_scrollRef
              (Qmax 0 (Qmin (scrollRef s - (x - startXRef s)) (maxScroll s)))
              (set_startXRef x s) in
  handleMouseMove x s =
    match animationFrame s with
    | None => requestFrame s1
    | Some _ => s1
    end.
Proof.
  intros Hd Hn. apply noImages_false_iff in Hn.
  unfold handleMouseMove. rewrite Hd, Hn. reflexivity.
Qed.

Lemma handleMouseMove_ignored (x : Q) (s : State) :
  isDragging s = false \/ loadedImages s = [] -> handleMouseMove x s = s.
Proof.
  intros [Hd | Hn]; unfold handleMouseMove.
  - rewrite Hd. reflexivity.
  - apply noImages_true_iff in Hn. rewrite Hn, orb_true_r. reflexivity.
Qed.

Lemma maxScroll_nonneg (s : State) :
  loadedImages s <> [] -> 0 <= rect_width (rect s) -> 0 <= maxScroll s.
Proof.
  intros Hn Hw. unfold maxScroll, JS.length.
  apply Qmult_le_0_compat; [|assumption].
  destruct (loadedImages s) as [|i l]; [congruence|].
  cbn [List.length]. rewrite Nat2Z.inj_succ. unfold Z.succ.
  rewrite inject_Z_plus. change (inject_Z 1) with 1.
  assert (H : 0 <= inject_Z (Z.of_nat (List.length l))).
  { change 0 with (inject_Z 0). rewrite <- Zle_Qle. lia. }
  lra.
Qed.

(** The fields a [mousemove] never touches. *)
Lemma handleMouseMove_frame (x : Q) (s : State) :
  isDragging (handleMouseMove x s) = isDragging s
  /\ loadedImages (handleMouseMove x s) = loadedImages s
  /\ rect (handleMouseMove x s) = rect s
  /\ canvasLog (handleMouseMove x s) = canvasLog s
  /\ loads (handleMouseMove x s) = loads s
  /\ resizeListener (handleMouseMove x s) = resizeListener s
  /\ devicePixelRatio (handleMouseMove x s) = devicePixelRatio s.
Proof.
  unfold handleMouseMove.
  destruct (negb (isDragging s) || noImages s); [repeat split|].
  cbn. destruct (animationFrame s); repeat split.
Qed.

Lemma handleMouseMove_in_range (x : Q) (s : State) :
  isDragging s = true -> loadedImages s <> [] -> 0 <= rect_width (rect s) ->
  0 <= scrollRef (handleMouseMove x s)
  /\ scrollRef (handleMouseMove x s) <= maxScroll s.
Proof.
  intros Hd Hn Hw.
  rewrite (handleMouseMove_dragging x s Hd Hn).
  pose proof (maxScroll_nonneg s Hn Hw) as Hm.
  destruct (animationFrame s); cbn [scrollRef requestFrame set_animationFrame
    set_nextFrameId set_frameQueue set_scrollRef];
    apply clamp_range; assumption.
Qed.

(** C5.  A [mousemove] at [clientX] while dragging with an image loaded
    takes [dx = clientX - startXRef], stores [clientX] in [startXRef], and
    stores in [scrollRef] the proposed offset [scrollRef - dx] clamped by
    [Math.max(0, Math.min(_, maxScroll))]; when the pointer moved left
    ([dx < 0]) the proposed offset is strictly greater than the current
    one. *)
Theorem handleMouseMove_delta :
  forall (s : State) (clientX : Q),
    isDragging s = true -> loadedImages s <> [] ->
    let dx := clientX - startXRef s in
    let proposed := scrollRef s - dx in
    let s' := step s (MouseMove clientX) in
    startXRef s' = clientX
    /\ scrollRef s' = Qmax 0 (Qmin proposed (maxScroll s))
    /\ (dx < 0 -> scrollRef s < proposed).
Proof.
  intros s x Hd Hn dx proposed s'.
  subst s'. cbn [step]. rewrite (handleMouseMove_dragging x s Hd Hn).
  split; [|split].
  - destruct (animationFrame s); reflexivity.
  - destruct (animationFrame s); reflexivity.
  - intro Hdx. subst proposed. lra.
Qed.

(** C5, witness: on the page of [App], dragging from x = 320 to x = 200
    (120 pixels to the left) proposes and stores the offset 120. *)
Lemma handleMouseMove_delta_witness :
  isDragging App.dragging = true /\ loadedImages App.dragging <> [] /\
  startXRef (step App.dragging (MouseMove 200)) = 200 /\
  scrollRef (step App.dragging (MouseMove 200)) == 120 /\
  scrollRef App.dragging < scrollRef App.dragging - (200 - startXRef App.dragging).
Proof.
  assert (Hd : isDragging App.dragging = true) by reflexivity.
  assert (Hn : loadedImages App.dragging <> []) by (vm_compute; discriminate).
  destruct (handleMouseMove_delta App.dragging 200 Hd Hn) as [Hx [Hs Hlt]].
  split; [exact Hd|]. split; [exact Hn|]. split; [exact Hx|].
  split; [rewrite Hs; reflexivity|].
  apply Hlt. reflexivity.
Defined.

Lemma states_moves_frame (xs : list Q) (s : State) :
  Forall (fun s' => isDragging s' = isDragging s
                    /\ loadedImages s' = loadedImages s
                    /\ rect s' = rect s)
         (states s (map MouseMove xs)).
Proof.
  revert s. induction xs as [|x xs IH]; intro s; cbn [map states].
  - constructor.
  - destruct (handleMouseMove_frame x s) as [Hd [Hl [Hr _]]].
    constructor.
    + cbn [step]. auto.
    + specialize (IH (step s (MouseMove x))). cbn [step] in IH |- *.
      rewrite Hd, Hl, Hr in IH. exact IH.
Qed.

(** C2.  With at least one image loaded and a positive slide width, after
    every one of a sequence of [mousemove] events received while dragging
    the scroll offset lies between 0 and [(N-1) * slideWidth]; each update
    stores the proposed offset clamped to that interval. *)
Theorem scroll_clamped_after_each_move :
  forall (s : State) (xs : list Q),
    isDragging s = true ->
    (1 <= List.length (loadedImages s))%nat ->
    0 < rect_width (rect s) ->
    let N := JS.length (loadedImages s) in
    let slideWidth := rect_width (rect s) in
    Forall (fun s' => 0 <= scrollRef s' /\ scrollRef s' <= (N - 1) * slideWidth)
           (states s (map MouseMove xs))
    /\ (forall x : Q,
          scrollRef (step s (MouseMove x)) =
            Qmax 0 (Qmin (scrollRef s - (x - startXRef s)) ((N - 1) * slideWidth))).
Proof.
  intros s xs Hd HN Hw N slideWidth.
  assert (Hn : loadedImages s <> [])
    by (destruct (loadedImages s); [cbn in HN; lia | discriminate]).
  split.
  - subst N slideWidth. fold (maxScroll s).
    revert s Hd HN Hw Hn.
    induction xs as [|x xs IH]; intros s Hd HN Hw Hn; cbn [map states].
    + constructor.
    + destruct (handleMouseMove_frame x s) as [Hd' [Hl' [Hr' _]]].
      constructor.
      * cbn [step]. apply handleMouseMove_in_range; try assumption. lra.
      * assert (Hm : maxScroll (step s (MouseMove x)) = maxScroll s)
          by (unfold maxScroll; cbn [step]; rewrite Hl', Hr'; reflexivity).
        rewrite <- Hm. apply IH; cbn [step].
        -- rewrite Hd'. exact Hd.
        -- rewrite Hl'. exact HN.
        -- rewrite Hr'. exact Hw.
        -- rewrite Hl'. exact Hn.
  - intro x. cbn [step]. rewrite (handleMouseMove_dragging x s Hd Hn).
    destruct (animationFrame s); reflexivity.
Qed.

(** C2, witness: on the page of [App], dragging far left, then far right,
    then back a little keeps the offset within [0, 1920]. *)
Lemma scroll_clamped_after_each_move_witness :
  isDragging App.dragging = true /\
  (1 <= List.length (loadedImages App.dragging))%nat /\
  0 < rect_width (rect App.dragging) /\
  Forall (fun s' => 0 <= scrollRef s' /\ scrollRef s' <= (4 - 1) * 640)
         (states App.dragging (map MouseMove [-5000; 9000; 8900])).
Proof.
  assert (Hd : isDragging App.dragging = true) by reflexivity.
  assert (HN : (1 <= List.length (loadedImages App.dragging))%nat)
    by (vm_compute; lia).
  assert (Hw : 0 < rect_width (rect App.dragging)) by reflexivity.
  repeat split; try assumption.
  exact (proj1 (scroll_clamped_after_each_move App.dragging
                  [-5000; 9000; 8900] Hd HN Hw)).
Defined.

(** ** What each event leaves alone *)

Ltac unfold_handlers :=
  unfold step, imageSettled, loadImages, setLoadedImages, resizeEffect,
    resizeCanvas, windowResize, handleMouseDown, handleMouseUp, draw.

Ltac break_matches :=
  repeat match goal with
         | |- context [match ?x with _ => _ end] => destruct x eqn:?
         end.

Ltac frame_cases := unfold_handlers; break_matches; cbn; auto.

Lemma runCallback_frame (s : State) (cb : FrameCallback) :
  scrollRef (runCallback s cb) = scrollRef s
  /\ rect (runCallback s cb) = rect s
  /\ loadedImages (runCallback s cb) = loadedImages s
  /\ resizeListener (runCallback s cb) = resizeListener s
  /\ isDragging (runCallback s cb) = isDragging s
  /\ frameQueue (runCallback s cb) = frameQueue s
  /\ loads (runCallback s cb) = loads s.
Proof. repeat split. Qed.

Lemma fold_runCallback_frame (q : list FrameCallback) (s : State) :
  scrollRef (fold_left runCallback q s) = scrollRef s
  /\ rect (fold_left runCallback q s) = rect s
  /\ loadedImages (fold_left runCallback q s) = loadedImages s
  /\ resizeListener (fold_left runCallback q s) = resizeListener s
  /\ isDragging (fold_left runCallback q s) = isDragging s
  /\ frameQueue (fold_left runCallback q s) = frameQueue s
  /\ loads (fold_left runCallback q s) = loads s.
Proof.
  revert s. induction q as [|cb q IH]; intro s; cbn [fold_left].
  - repeat split.
  - destruct (IH (runCallback s cb)) as (H1 & H2 & H3 & H4 & H5 & H6 & H7).
    destruct (runCallback_frame s cb) as (G1 & G2 & G3 & G4 & G5 & G6 & G7).
    repeat split; congruence.
Qed.

Lemma animationFrameTick_frame (s : State) :
  scrollRef (animationFrameTick s) = scrollRef s
  /\ rect (animationFrameTick s) = rect s
  /\ loadedImages (animationFrameTick s) = loadedImages s
  /\ resizeListener (animationFrameTick s) = resizeListener s
  /\ isDragging (animationFrameTick s) = isDragging s
  /\ loads (animationFrameTick s) = loads s.
Proof.
  unfold animationFrameTick.
  destruct (fold_runCallback_frame (frameQueue s) (set_frameQueue [] s))
    as (H1 & H2 & H3 & H4 & H5 & _ & H7).
  repeat split; assumption.
Qed.

(** Only a [mousemove] writes [scrollRef]. *)
Lemma step_keeps_scroll (s : State) (e : Event) :
  (forall x, e <> MouseMove x) -> scrollRef (step s e) = scrollRef s.
Proof.
  intro Hne. destruct e; try solve [frame_cases].
  - exfalso. exact (Hne clientX eq_refl).
  - apply animationFrameTick_frame.
Qed.

(** Only a [resize] changes the rectangle. *)
Lemma step_keeps_rect (s : State) (e : Event) :
  (forall r, e <> WindowResized r) -> rect (step s e) = rect s.
Proof.
  intro Hne. destruct e; try solve [frame_cases].
  - apply handleMouseMove_frame.
  - exfalso. exact (Hne r eq_refl).
  - apply animationFrameTick_frame.
Qed.

Lemma windowResize_rect (r : DOMRect) (s : State) : rect (windowResize r s) = r.
Proof. frame_cases. Qed.

Lemma mount_fields imgs bg r dpr :
  scrollRef (mount imgs bg r dpr) = 0
  /\ rect (mount imgs bg r dpr) = r
  /\ loadedImages (mount imgs bg r dpr) = []
  /\ resizeListener (mount imgs bg r dpr) = None
  /\ animationFrame (mount imgs bg r dpr) = None
  /\ frameQueue (mount imgs bg r dpr) = [].
Proof. unfold mount. destruct imgs; repeat split. Qed.

Lemma reachable_rect_ok (s : State) : reachable s -> rect_ok (rect s) = true.
Proof.
  induction 1 as [imgs bg r dpr Hr | s e Hs IH He].
  - destruct (mount_fields imgs bg r dpr) as (_ & E & _). rewrite E. exact Hr.
  - destruct e; try (rewrite step_keeps_rect by discriminate; exact IH).
    cbn [step]. rewrite windowResize_rect. exact He.
Qed.

Lemma rect_ok_width (r : DOMRect) : rect_ok r = true -> 0 <= rect_width r.
Proof.
  unfold rect_ok. rewrite andb_true_iff. intros [H _].
  apply Qle_bool_iff. exact H.
Qed.

Lemma reachable_scroll_nonneg (s : State) : reachable s -> 0 <= scrollRef s.
Proof.
  induction 1 as [imgs bg r dpr Hr | s e Hs IH He].
  - destruct (mount_fields imgs bg r dpr) as (E & _). rewrite E. lra.
  - destruct e; try (rewrite step_keeps_scroll by discriminate; exact IH).
    cbn [step].
    destruct (isDragging s) eqn:Hd;
      [destruct (noImages s) eqn:Hn|].
    + rewrite handleMouseMove_ignored; [exact IH|].
      right. apply noImages_true_iff. exact Hn.
    + apply noImages_false_iff in Hn.
      rewrite (handleMouseMove_dragging clientX s Hd Hn).
      destruct (animationFrame s); cbn; apply Q.le_max_l.
    + rewrite handleMouseMove_ignored; [exact IH | left; exact Hd].
Qed.

Lemma reachable_run (s : State) (es : list Event) :
  reachable s -> forallb event_ok es = true -> reachable (run s es).
Proof.
  revert s. induction es as [|e es IH]; intros s Hs Hok; cbn in *.
  - exact Hs.
  - apply andb_true_iff in Hok. destruct Hok as [He Hes].
    apply IH; [|exact Hes]. apply reach_step; assumption.
Qed.

Lemma App_mounted_reachable : reachable App.mounted.
Proof. apply reach_mount. reflexivity. Qed.

Lemma App_loaded_reachable : reachable App.loaded.
Proof.
  apply reachable_run; [exact App_mounted_reachable | reflexivity].
Qed.

Lemma App_dragging_reachable : reachable App.dragging.
Proof.
  apply reach_step; [exact App_loaded_reachable | reflexivity].
Qed.

(** ** The scroll bound across events *)

(** C7 (as amended).  In every reachable state the scroll offset is not
    negative.  A [mousemove] that updates it leaves it at most
    [(N-1) * width] for the image count and the viewport width of that
    moment.  No other event writes it: a resize or a load that changes the
    width or the count does not clamp it again. *)
Theorem scroll_bound_at_updates :
  forall s : State,
    reachable s ->
    0 <= scrollRef s
    /\ (forall x : Q,
          isDragging s = true -> loadedImages s <> [] ->
          scroll_in_range (step s (MouseMove x)))
    /\ (forall e : Event,
          (forall x, e <> MouseMove x) -> scrollRef (step s e) = scrollRef s).
Proof.
  intros s Hs. split; [exact (reachable_scroll_nonneg s Hs)|]. split.
  - intros x Hd Hn.
    pose proof (rect_ok_width _ (reachable_rect_ok s Hs)) as Hw.
    destruct (handleMouseMove_frame x s) as (_ & Hl & Hr & _).
    unfold scroll_in_range.
    assert (Hm : maxScroll (step s (MouseMove x)) = maxScroll s)
      by (unfold maxScroll; cbn [step]; rewrite Hl, Hr; reflexivity).
    rewrite Hm. cbn [step]. apply handleMouseMove_in_range; assumption.
  - intros e He. apply step_keeps_scroll. exact He.
Qed.

(** C7, witness: on the page of [App], a drag to the far left is clamped
    to 1920, and the resize that follows leaves 1920 in place. *)
Lemma scroll_bound_at_updates_witness :
  reachable App.dragging /\
  0 <= scrollRef App.dragging /\
  scroll_in_range (step App.dragging (MouseMove (-5000))) /\
  scrollRef (step App.dragging (WindowResized (mkRect 320 200))) =
    scrollRef App.dragging.
Proof.
  destruct (scroll_bound_at_updates App.dragging App_dragging_reachable)
    as (H0 & Hmove & Hkeep).
  split; [exact App_dragging_reachable|]. split; [exact H0|]. split.
  - apply Hmove; [reflexivity | vm_compute; discriminate].
  - apply Hkeep. discriminate.
Defined.

(** C7, as the specification words it, fails: after a drag to the last of
    four slides at width 640 the offset is 1920; when the canvas then
    shrinks to width 320 the offset is still 1920, above [3 * 320]. *)
Lemma scroll_exceeds_bound_after_resize :
  ~ (forall s : State, reachable s -> scroll_in_range s).
Proof.
  intro H.
  assert (Hr : reachable App.shrunk).
  { apply reachable_run; [exact App_dragging_reachable | reflexivity]. }
  destruct (H App.shrunk Hr) as [_ Hle].
  vm_compute in Hle. apply Hle. reflexivity.
Qed.

(** ** Frame coalescing *)

Lemma step_keeps_frames (s : State) (e : Event) :
  (forall x, e <> MouseMove x) -> e <> AnimationFrame ->
  animationFrame (step s e) = animationFrame s
  /\ frameQueue (step s e) = frameQueue s.
Proof.
  intros Hm Hf. destruct e; try solve [frame_cases].
  - exfalso. exact (Hm clientX eq_refl).
  - congruence.
Qed.

Lemma handleMouseMove_frames (x : Q) (s : State) :
  one_frame_pending s -> one_frame_pending (handleMouseMove x s).
Proof.
  unfold one_frame_pending, handleMouseMove.
  destruct (negb (isDragging s) || noImages s); [tauto|].
  cbn [animationFrame frameQueue set_scrollRef set_startXRef].
  destruct (animationFrame s) as [id|] eqn:Ea; cbn; rewrite ?Ea; [tauto|].
  destruct (frameQueue s); cbn; tauto.
Qed.

Lemma animationFrameTick_frames (s : State) :
  one_frame_pending s ->
  animationFrame (animationFrameTick s) = None
  /\ frameQueue (animationFrameTick s) = [].
Proof.
  unfold one_frame_pending, animationFrameTick.
  destruct (animationFrame s) as [id|] eqn:Ea;
    destruct (frameQueue s) as [|cb [|cb' q]] eqn:Eq;
    intro H; try contradiction; cbn; split; solve [reflexivity | exact Ea].
Qed.

Lemma reachable_one_frame_pending (s : State) :
  reachable s -> one_frame_pending s.
Proof.
  induction 1 as [imgs bg r dpr Hr | s e Hs IH He].
  - destruct (mount_fields imgs bg r dpr) as (_ & _ & _ & _ & Ea & Eq).
    unfold one_frame_pending. rewrite Ea, Eq. exact I.
  - destruct e;
      try (match goal with
           | |- one_frame_pending (step s ?e) =>
               destruct (step_keeps_frames s e) as [Ea Eq];
               [discriminate | discriminate |];
               unfold one_frame_pending; rewrite Ea, Eq; exact IH
           end).
    + cbn [step]. apply handleMouseMove_frames. exact IH.
    + cbn [step]. destruct (animationFrameTick_frames s IH) as [Ea Eq].
      unfold one_frame_pending. rewrite Ea, Eq. exact I.
Qed.

(** C8.  In every reachable state at most one redraw request is queued,
    and [animationFrame] is [null] exactly when none is.  While one is
    queued a [mousemove] queues no other.  When the frame comes, the
    queued callback draws with the scroll offset (and rectangle) the
    component has at that moment: the callback holds no offset of its
    own. *)
Theorem frame_coalescing :
  forall s : State,
    reachable s ->
    (List.length (frameQueue s) <= 1)%nat
    /\ (animationFrame s = None <-> frameQueue s = [])
    /\ (forall x : Q,
          animationFrame s <> None ->
          frameQueue (step s (MouseMove x)) = frameQueue s
          /\ animationFrame (step s (MouseMove x)) = animationFrame s)
    /\ (forall cb : FrameCallback,
          frameQueue s = [cb] ->
          step s AnimationFrame =
            set_animationFrame None
              (draw (drawCurrentImages (rect s) (scrollRef s)
                       (cb_loadedImages cb) (cb_backgroundColor cb))
                 (set_frameQueue [] s))).
Proof.
  intros s Hs. pose proof (reachable_one_frame_pending s Hs) as Hinv.
  unfold one_frame_pending in Hinv.
  split; [|split; [|split]].
  - destruct (animationFrame s), (frameQueue s) as [|cb [|cb' q]];
      try contradiction; cbn; lia.
  - destruct (animationFrame s), (frameQueue s) as [|cb [|cb' q]];
      try contradiction; split; congruence.
  - intros x Hpending. cbn [step]. unfold handleMouseMove.
    destruct (negb (isDragging s) || noImages s); [split; reflexivity|].
    cbn [animationFrame set_scrollRef set_startXRef].
    destruct (animationFrame s) eqn:Ea; [|congruence].
    cbn. split; [reflexivity | exact Ea].
  - intros cb Hq. cbn [step]. unfold animationFrameTick. rewrite Hq.
    reflexivity.
Qed.

(** C8, witness: on the page of [App], two moves arrive before the frame.
    The first requests the frame at offset 120; the second moves the
    offset to 300 and requests nothing; the frame then draws at 300. *)
Lemma frame_coalescing_witness :
  reachable App.moved_twice /\
  (List.length (frameQueue App.moved_twice) <= 1)%nat /\
  scrollRef (step App.dragging (MouseMove 200)) == 120 /\
  scrollRef App.moved_twice == 300 /\
  canvasLog (step App.moved_twice AnimationFrame) =
    canvasLog App.moved_twice ++
    drawCurrentImages (mkRect 640 400) (scrollRef App.moved_twice)
      (loadedImages App.loaded) "#F2F2F2".
Proof.
  assert (Hr : reachable App.moved_twice).
  { apply reachable_run; [exact App_dragging_reachable | reflexivity]. }
  destruct (frame_coalescing App.moved_twice Hr) as (Hlen & _ & _ & Hfire).
  split; [exact Hr|]. split; [exact Hlen|].
  split; [reflexivity|]. split; [reflexivity|].
  rewrite (Hfire (mkCallback 1 (loadedImages App.loaded) "#F2F2F2"))
    by reflexivity.
  reflexivity.
Defined.

(** ** The resize handler *)

Lemma setLoadedImages_fields (loaded : list Image) (s : State) :
  loadedImages (setLoadedImages loaded s) = loaded
  /\ resizeListener (setLoadedImages loaded s) =
       match loaded with
       | [] => None
       | _ => Some (JS.or1 (devicePixelRatio s))
       end.
Proof.
  unfold setLoadedImages, resizeEffect, noImages.
  destruct loaded; cbn; split; reflexivity.
Qed.

Lemma resizeEffect_fields (s : State) :
  loadedImages (resizeEffect s) = loadedImages s
  /\ resizeListener (resizeEffect s) =
       if noImages s then None else Some (JS.or1 (devicePixelRatio s)).
Proof.
  unfold resizeEffect. destruct (noImages s); split; reflexivity.
Qed.

Lemma resizeEffect_listener (s : State) : listener_installed (resizeEffect s).
Proof.
  unfold listener_installed.
  destruct (resizeEffect_fields s) as [El Er]. rewrite El, Er.
  destruct (noImages s) eqn:E.
  - apply noImages_true_iff. exact E.
  - apply noImages_false_iff. exact E.
Qed.

(** Every event either leaves the loaded images and the resize listener
    as they are, or ends with a run of the resize effect, in a state with
    the pixel ratio of the state the event arrived in. *)
Lemma step_listener (s : State) (e : Event) :
  (loadedImages (step s e) = loadedImages s
   /\ resizeListener (step s e) = resizeListener s)
  \/ (exists s0,
        step s e = resizeEffect s0
        /\ devicePixelRatio s0 = devicePixelRatio s).
Proof.
  destruct e; try solve [left; frame_cases].
  - cbn [step]. unfold loadImages, setLoadedImages. destruct srcs.
    + right. eexists. split; reflexivity.
    + left. split; reflexivity.
  - right. eexists. split; reflexivity.
  - cbn [step]. unfold imageSettled, setLoadedImages.
    destruct (nth_error (loads s) request); [|left; split; reflexivity].
    destruct (settle l index o) as [req' [loaded|]].
    + right. eexists. split; reflexivity.
    + left. split; reflexivity.
  - left. destruct (handleMouseMove_frame clientX s) as (_ & Hl & _ & _ & _ & Hr & _).
    cbn [step]. split; assumption.
  - left. destruct (animationFrameTick_frame s) as (_ & _ & Hl & Hr & _).
    cbn [step]. split; assumption.
Qed.

Lemma reachable_listener_installed (s : State) :
  reachable s -> listener_installed s.
Proof.
  induction 1 as [imgs bg r dpr Hr | s e Hs IH He].
  - destruct (mount_fields imgs bg r dpr) as (_ & _ & El & Er & _).
    unfold listener_installed. rewrite El, Er. reflexivity.
  - destruct (step_listener s e) as [[El Er] | (s0 & E & _)].
    + unfold listener_installed. rewrite El, Er. exact IH.
    + rewrite E. apply resizeEffect_listener.
Qed.

Lemma windowResize_log (s : State) (r : DOMRect) (dpr : Q) :
  resizeListener s = Some dpr ->
  canvasLog (step s (WindowResized r)) = canvasLog s ++ resizeCalls r dpr s
  /\ scrollRef (step s (WindowResized r)) = scrollRef s.
Proof.
  intro El. cbn [step]. unfold windowResize. cbn [resizeListener set_rect].
  rewrite El. split; reflexivity.
Qed.

(** C9 (as amended).  In a reachable state with an image loaded the resize
    listener is installed, holding the pixel ratio [dpr] that its effect
    read.  A [resize] event makes it set the backing store to the canvas's
    logical size times [dpr], reset the transform, scale by [dpr] and call
    [drawCurrentImages] once, for the new rectangle and the unchanged
    scroll offset; nothing else changes and no frame is requested.  [dpr]
    is [window.devicePixelRatio || 1] as read when the resize effect last
    ran: an event keeps the listener's [dpr] unless it ends with a run of
    that effect (after [loadedImages] or [backgroundColor] changed), so a
    later change of the display's pixel ratio alone is not seen. *)
Theorem resize_redraws_once :
  forall s : State,
    reachable s -> loadedImages s <> [] ->
    exists dpr : Q,
      resizeListener s = Some dpr
      /\ (forall r : DOMRect,
            step s (WindowResized r) =
              draw (resizeCalls r dpr s) (set_rect r s)
            /\ canvasLog (step s (WindowResized r)) =
                 canvasLog s ++ resizeCalls r dpr s
            /\ scrollRef (step s (WindowResized r)) = scrollRef s
            /\ frameQueue (step s (WindowResized r)) = frameQueue s)
      /\ (forall e : Event,
            resizeListener (step s e) = Some dpr
            \/ exists s0 : State,
                 step s e = resizeEffect s0
                 /\ resizeListener (step s e) =
                      if noImages s0 then None
                      else Some (JS.or1 (devicePixelRatio s))).
Proof.
  intros s Hs Hn.
  pose proof (reachable_listener_installed s Hs) as Hinv.
  unfold listener_installed in Hinv.
  destruct (resizeListener s) as [dpr|] eqn:El; [|contradiction].
  exists dpr. split; [reflexivity|]. split.
  - intro r.
    assert (E : step s (WindowResized r) = draw (resizeCalls r dpr s) (set_rect r s)).
    { cbn [step]. unfold windowResize. cbn [resizeListener set_rect].
      rewrite El. reflexivity. }
    rewrite E. repeat split.
  - intro e.
    destruct (step_listener s e) as [[_ Er] | (s0 & E & Ed)].
    + left. rewrite Er. exact El.
    + right. exists s0. split; [exact E|].
      rewrite E. destruct (resizeEffect_fields s0) as [_ Hr].
      rewrite Hr, Ed. reflexivity.
Qed.

(** C9, witness: on the page of [App], after the pixel ratio changed from
    1 to 2, a resize to 320 by 200 sets the backing store to 320 by 200
    (the ratio read at load time was 1) and redraws once at the scroll
    offset held before. *)
Lemma resize_redraws_once_witness :
  reachable App.zoomed /\ loadedImages App.zoomed <> [] /\
  resizeListener App.zoomed = Some 1 /\
  canvasLog (step App.zoomed (WindowResized (mkRect 320 200))) =
    canvasLog App.zoomed ++
    [ SetCanvasWidth (320 * 1); SetCanvasHeight (200 * 1);
      SetTransform 1 0 0 1 0 0; Scale 1 1 ]
    ++ drawCurrentImages (mkRect 320 200) (scrollRef App.zoomed)
         (loadedImages App.zoomed) "#F2F2F2" /\
  scrollRef (step App.zoomed (WindowResized (mkRect 320 200))) =
    scrollRef App.zoomed.
Proof.
  assert (Hr : reachable App.zoomed)
    by (apply reach_step; [exact App_loaded_reachable | reflexivity]).
  assert (Hn : loadedImages App.zoomed <> []) by (vm_compute; discriminate).
  destruct (resize_redraws_once App.zoomed Hr Hn) as (dpr & El & Hresize & _).
  assert (Ed : dpr = 1) by (vm_compute in El; congruence).
  subst dpr.
  destruct (Hresize (mkRect 320 200)) as (_ & Hlog & Hscroll & _).
  repeat split; assumption.
Defined.

(** C9, as the specification words it, fails: the page of [App] loads its
    images at pixel ratio 1; the ratio then becomes 2; at the next resize
    the canvas measures 640 by 400 and the handler sets the backing-store
    width to 640, not to 640 times 2. *)
Lemma resize_uses_stale_pixel_ratio :
  ~ (forall (s : State) (r : DOMRect),
        reachable s -> loadedImages s <> [] ->
        exists (w : Q) (ops : list CanvasOp),
          canvasLog (step s (WindowResized r)) =
            canvasLog s ++ SetCanvasWidth w :: ops
          /\ w == rect_width r * devicePixelRatio s).
Proof.
  intro H.
  assert (Hr : reachable App.zoomed)
    by (apply reach_step; [exact App_loaded_reachable | reflexivity]).
  assert (Hn : loadedImages App.zoomed <> []) by (vm_compute; discriminate).
  destruct (H App.zoomed (mkRect 640 400) Hr Hn) as (w & ops & Hlog & Hw).
  destruct (windowResize_log App.zoomed (mkRect 640 400) 1 eq_refl)
    as [Hlog' _].
  rewrite Hlog' in Hlog. apply app_inv_head in Hlog.
  unfold resizeCalls in Hlog. cbn [app] in Hlog.
  injection Hlog as Hw' _. subst w.
  vm_compute in Hw. discriminate Hw.
Qed.

(** ** The preloader *)

Lemma nth_error_list_set {A : Type} (i : nat) (v : A) (l : list A) (n : nat) :
  nth_error (list_set i v l) n =
    if (n =? i)%nat then (if (i <? List.length l)%nat then Some v else None)
    else nth_error l n.
Proof.
  revert i n. induction l as [|x l IH]; intros i n.
  - replace (list_set i v []) with (@nil A) by (destruct i; reflexivity).
    cbn [List.length].
    replace (i <? 0)%nat with false by (symmetry; apply Nat.ltb_ge; lia).
    destruct (n =? i)%nat; destruct n; reflexivity.
  - destruct i as [|i], n as [|n]; cbn [list_set nth_error]; try reflexivity.
    rewrite IH. reflexivity.
Qed.

Lemma list_set_length {A : Type} (i : nat) (v : A) (l : list A) :
  List.length (list_set i v l) = List.length l.
Proof.
  revert i. induction l as [|x l IH]; intro i; destruct i; cbn; auto.
Qed.

(** [Promise.all] is not resolved while one promise is not fulfilled. *)
Lemma allFulfilled_unsettled (slots : list LoadSlot) (i : nat) (sl : LoadSlot) :
  nth_error slots i = Some sl ->
  (forall img, slot_state sl <> Fulfilled img) ->
  allFulfilled slots = None.
Proof.
  revert i. induction slots as [|x slots IH]; intros i Hi Hs.
  - destruct i; discriminate.
  - destruct i as [|i]; cbn [nth_error] in Hi; cbn [allFulfilled].
    + injection Hi as ->. destruct (slot_state sl); try reflexivity.
      exfalso. exact (Hs a eq_refl).
    + rewrite (IH i Hi Hs). destruct (slot_state x); reflexivity.
Qed.

Lemma settles_app (req : LoadRequest) (es1 es2 : list (nat * Outcome)) :
  settles req (es1 ++ es2) =
    let (req1, r1) := settles req es1 in
    let (req2, r2) := settles req1 es2 in
    (req2, match r2 with Some l => Some l | None => r1 end).
Proof.
  revert req. induction es1 as [|[i o] es1 IH]; intro req; cbn [app settles].
  - destruct (settles req es2) as [req2 [l|]]; reflexivity.
  - destruct (settle req i o) as [req1 r1]. rewrite IH.
    destruct (settles req1 es1) as [req1' r1'].
    destruct (settles req1' es2) as [req2 [l|]]; [reflexivity|].
    destruct r1'; reflexivity.
Qed.

(** While the promise of image [i] is pending and no event is for it, the
    request resolves nothing. *)
Lemma settles_while_pending (es : list (nat * Outcome)) :
  forall (req : LoadRequest) (i : nat) (s : string),
    nth_error (req_slots req) i = Some (mkSlot s Pending) ->
    ~ In i (map fst es) ->
    snd (settles req es) = None
    /\ nth_error (req_slots (fst (settles req es))) i = Some (mkSlot s Pending).
Proof.
  induction es as [|[j o] es IH]; intros req i s Hi Hnot; cbn [settles].
  - split; [reflexivity | exact Hi].
  - cbn [map fst In] in Hnot.
    assert (Hji : j <> i) by tauto. assert (Hnot' : ~ In i (map fst es)) by tauto.
    assert (Hstep : snd (settle req j o) = None
                    /\ nth_error (req_slots (fst (settle req j o))) i =
                         Some (mkSlot s Pending)).
    { unfold settle.
      destruct (nth_error (req_slots req) j) as [[sj [| |]]|] eqn:Ej;
        try (split; [reflexivity | exact Hi]).
      assert (Hkeep : forall v, nth_error (list_set j v (req_slots req)) i =
                                Some (mkSlot s Pending)).
      { intro v. rewrite nth_error_list_set.
        destruct (i =? j)%nat eqn:E; [apply Nat.eqb_eq in E; congruence | exact Hi]. }
      destruct o as [w h|].
      - rewrite (allFulfilled_unsettled _ i _ (Hkeep _)) by (cbn; discriminate).
        destruct (req_all req); cbn; split; solve [reflexivity | apply Hkeep].
      - destruct (req_all req); cbn; split; solve [reflexivity | apply Hkeep]. }
    destruct (settle req j o) as [req1 r1]. cbn [fst snd] in Hstep.
    destruct Hstep as [-> Hi1].
    destruct (IH req1 i s Hi1 Hnot') as [Hr Hs].
    destruct (settles req1 es) as [req2 r2]. cbn [fst snd] in *.
    subst r2. split; [reflexivity | exact Hs].
Qed.

(** A request whose [Promise.all] is settled resolves nothing more. *)
Lemma settles_after_settled (es : list (nat * Outcome)) :
  forall req : LoadRequest,
    req_all req <> Pending ->
    snd (settles req es) = None.
Proof.
  induction es as [|[j o] es IH]; intros req Hall; cbn [settles].
  - reflexivity.
  - assert (Hstep : snd (settle req j o) = None
                    /\ req_all (fst (settle req j o)) <> Pending).
    { unfold settle.
      destruct (nth_error (req_slots req) j) as [[sj [| |]]|];
        try (split; [reflexivity | exact Hall]).
      destruct o as [w h|]; destruct (req_all req) eqn:Ea;
        try congruence; cbn; split; congruence. }
    destruct (settle req j o) as [req1 r1]. cbn [fst snd] in Hstep.
    destruct Hstep as [-> Hall1].
    pose proof (IH req1 Hall1) as Hr.
    destruct (settles req1 es) as [req2 r2]. cbn [snd] in *. subst r2.
    reflexivity.
Qed.

(** An [onerror] on a pending image rejects the request's [Promise.all],
    if it was pending, and resolves nothing. *)
Lemma settle_failed (req : LoadRequest) (i : nat) (s : string) :
  nth_error (req_slots req) i = Some (mkSlot s Pending) ->
  snd (settle req i Failed) = None
  /\ req_all (fst (settle req i Failed)) <> Pending.
Proof.
  intro Hi. unfold settle. rewrite Hi.
  destruct (req_all req); cbn; split; congruence.
Qed.

(** A request in which one pending image fails resolves nothing, whatever
    happens to the other images and in whatever order. *)
Lemma settles_with_failure (req : LoadRequest) (es : list (nat * Outcome))
    (i : nat) (s : string) :
  nth_error (req_slots req) i = Some (mkSlot s Pending) ->
  NoDup (map fst es) -> In (i, Failed) es ->
  snd (settles req es) = None.
Proof.
  intros Hi Hnd Hin.
  destruct (in_split _ _ Hin) as (es1 & es2 & ->).
  rewrite map_app in Hnd. cbn [map fst] in Hnd.
  assert (Hnot : ~ In i (map fst es1)).
  { intro H1. apply NoDup_remove_2 in Hnd. apply Hnd.
    apply in_or_app. left. exact H1. }
  destruct (settles_while_pending es1 req i s Hi Hnot) as [Hr1 Hi1].
  rewrite settles_app. destruct (settles req es1) as [req1 r1].
  cbn [fst snd] in *. subst r1.
  cbn [settles].
  destruct (settle_failed req1 i s Hi1) as [Hr2 Hall].
  destruct (settle req1 i Failed) as [req2 r2]. cbn [fst snd] in *. subst r2.
  pose proof (settles_after_settled es2 req2 Hall) as Hr3.
  destruct (settles req2 es2) as [req3 r3]. cbn [snd] in *. subst r3.
  reflexivity.
Qed.

Section AllLoaded.

Variable srcs : list string.
Variables w h : nat -> Q.

Let N := List.length srcs.
Let expected := map (loadedImage srcs w h) (seq 0 N).

Lemma existsb_eqb_In (i : nat) (done : list nat) :
  existsb (Nat.eqb i) done = true <-> In i done.
Proof.
  rewrite existsb_exists. split.
  - intros (x & Hx & E). apply Nat.eqb_eq in E. subst x. exact Hx.
  - intro Hi. exists i. split; [exact Hi | apply Nat.eqb_refl].
Qed.

Lemma nth_error_slotsAfter (done : list nat) (i : nat) :
  (i < N)%nat ->
  nth_error (slotsAfter srcs w h done) i =
    Some (mkSlot (nth i srcs EmptyString)
            (if existsb (Nat.eqb i) done
             then Fulfilled (loadedImage srcs w h i) else Pending)).
Proof.
  intro Hi. unfold slotsAfter. fold N.
  rewrite nth_error_map, nth_error_seq.
  apply Nat.ltb_lt in Hi. rewrite Hi. reflexivity.
Qed.

Lemma slotsAfter_length (done : list nat) :
  List.length (slotsAfter srcs w h done) = N.
Proof. unfold slotsAfter. rewrite length_map, length_seq. reflexivity. Qed.

Lemma freshRequest_slots :
  req_slots (freshRequest srcs) = slotsAfter srcs w h [].
Proof.
  unfold freshRequest, slotsAfter. cbn [req_slots existsb].
  apply nth_error_ext. intro n.
  rewrite !nth_error_map, nth_error_seq.
  destruct (n <? List.length srcs)%nat eqn:E.
  - apply Nat.ltb_lt in E.
    rewrite (nth_error_nth' srcs EmptyString E). reflexivity.
  - apply Nat.ltb_ge in E. apply nth_error_None in E. rewrite E. reflexivity.
Qed.

Lemma slotsAfter_set (done : list nat) (i : nat) :
  (i < N)%nat ->
  list_set i (mkSlot (nth i srcs EmptyString) (Fulfilled (loadedImage srcs w h i)))
    (slotsAfter srcs w h done) =
  slotsAfter srcs w h (i :: done).
Proof.
  intro Hi. apply nth_error_ext. intro n.
  rewrite nth_error_list_set, slotsAfter_length.
  destruct (n =? i)%nat eqn:E.
  - apply Nat.eqb_eq in E. subst n.
    apply Nat.ltb_lt in Hi. rewrite Hi. apply Nat.ltb_lt in Hi.
    rewrite nth_error_slotsAfter by exact Hi.
    cbn [existsb]. rewrite Nat.eqb_refl. reflexivity.
  - destruct (Nat.lt_ge_cases n N) as [Hn | Hn].
    + rewrite !nth_error_slotsAfter by exact Hn.
      cbn [existsb]. rewrite E. reflexivity.
    + assert (H1 : nth_error (slotsAfter srcs w h done) n = None)
        by (apply nth_error_None; rewrite slotsAfter_length; exact Hn).
      assert (H2 : nth_error (slotsAfter srcs w h (i :: done)) n = None)
        by (apply nth_error_None; rewrite slotsAfter_length; exact Hn).
      congruence.
Qed.

Lemma allFulfilled_all_done (done : list nat) (l : list nat) :
  (forall i, In i l -> In i done) ->
  allFulfilled
    (map (fun i => mkSlot (nth i srcs EmptyString)
                     (if existsb (Nat.eqb i) done
                      then Fulfilled (loadedImage srcs w h i) else Pending)) l) =
  Some (map (loadedImage srcs w h) l).
Proof.
  induction l as [|i l IH]; intro Hall; cbn [map allFulfilled slot_state].
  - reflexivity.
  - assert (Hi : existsb (Nat.eqb i) done = true)
      by (apply existsb_eqb_In; apply Hall; left; reflexivity).
    rewrite Hi, IH; [reflexivity|].
    intros j Hj. apply Hall. right. exact Hj.
Qed.

(** From the state in which the images of [done] have loaded, loading the
    remaining ones in any order resolves [Promise.all] with the images in
    the order of the sources. *)
Lemma settles_all_loaded (rest : list nat) :
  forall done : list nat,
    rest <> [] -> NoDup rest ->
    (forall i, In i rest -> (i < N)%nat /\ ~ In i done) ->
    (forall i, (i < N)%nat -> In i rest \/ In i done) ->
    snd (settles (mkRequest (slotsAfter srcs w h done) Pending)
           (map (fun i => (i, Loaded (w i) (h i))) rest)) = Some expected.
Proof.
  induction rest as [|i rest IH]; intros done Hne Hnd Hin Hcover; [congruence|].
  cbn [map settles].
  destruct (Hin i (or_introl eq_refl)) as [Hi Hidone].
  assert (Hslot : nth_error (slotsAfter srcs w h done) i =
                    Some (mkSlot (nth i srcs EmptyString) Pending)).
  { rewrite nth_error_slotsAfter by exact Hi.
    destruct (existsb (Nat.eqb i) done) eqn:E; [|reflexivity].
    apply existsb_eqb_In in E. contradiction. }
  unfold settle at 1. cbn [req_slots req_all]. rewrite Hslot.
  change (mkImage (nth i srcs EmptyString) (w i) (h i))
    with (loadedImage srcs w h i).
  rewrite (slotsAfter_set done i Hi).
  inversion Hnd as [|? ? Hirest Hnd']; subst.
  destruct rest as [|j rest'].
  - (* the last image: everything is fulfilled *)
    assert (Hall : allFulfilled (slotsAfter srcs w h (i :: done)) = Some expected).
    { unfold slotsAfter, expected. fold N. apply allFulfilled_all_done.
      intros k Hk. apply in_seq in Hk.
      destruct (Hcover k ltac:(lia)) as [[-> | []] | Hd];
        [left; reflexivity | right; exact Hd]. }
    rewrite Hall. reflexivity.
  - (* image [j] is still pending *)
    destruct (Hin j (or_intror (or_introl eq_refl))) as [Hj Hjdone].
    assert (Hji : j <> i) by (intro; subst; apply Hirest; left; reflexivity).
    assert (Hpend : nth_error (slotsAfter srcs w h (i :: done)) j =
                      Some (mkSlot (nth j srcs EmptyString) Pending)).
    { rewrite nth_error_slotsAfter by exact Hj. cbn [existsb].
      apply Nat.eqb_neq in Hji. rewrite Hji. cbn [orb].
      destruct (existsb (Nat.eqb j) done) eqn:E; [|reflexivity].
      apply existsb_eqb_In in E. contradiction. }
    rewrite (allFulfilled_unsettled _ j _ Hpend) by (cbn; discriminate).
    specialize (IH (i :: done)).
    destruct (settles (mkRequest (slotsAfter srcs w h (i :: done)) Pending)
                (map (fun i0 => (i0, Loaded (w i0) (h i0))) (j :: rest')))
      as [req2 r2].
    cbn [snd] in IH. rewrite IH; [reflexivity | discriminate | exact Hnd' | |].
    + intros k Hk. destruct (Hin k (or_intror Hk)) as [Hk1 Hk2].
      split; [exact Hk1|]. intros [-> | Hd]; [|contradiction].
      apply Hirest. exact Hk.
    + intros k Hk. destruct (Hcover k Hk) as [[-> | Hr] | Hd].
      * right. left. reflexivity.
      * left. exact Hr.
      * right. right. exact Hd.
Qed.

(** The committed images carry the sources, in order. *)
Lemma expected_sources : map src expected = srcs /\ List.length expected = N.
Proof.
  unfold expected. split; [|rewrite length_map, length_seq; reflexivity].
  rewrite map_map. unfold loadedImage. cbn [src].
  apply nth_error_ext. intro n.
  rewrite nth_error_map, nth_error_seq. fold N.
  destruct (n <? N)%nat eqn:E.
  - apply Nat.ltb_lt in E. cbn [option_map Nat.add].
    rewrite (nth_error_nth' srcs EmptyString E). reflexivity.
  - apply Nat.ltb_ge in E. apply nth_error_None in E. rewrite E. reflexivity.
Qed.

End AllLoaded.

Lemma setLoadedImages_loads (loaded : list Image) (s : State) :
  loads (setLoadedImages loaded s) = loads s.
Proof. frame_cases. Qed.

(** The events of one request, seen from the component: the request
    evolves by [settles], and [loadedImages] changes exactly when the
    request's [Promise.all] is resolved. *)
Lemma run_settleEvents (es : list (nat * Outcome)) :
  forall (s : State) (r : nat) (req : LoadRequest),
    nth_error (loads s) r = Some req ->
    nth_error (loads (run s (settleEvents r es))) r = Some (fst (settles req es))
    /\ loadedImages (run s (settleEvents r es)) =
         match snd (settles req es) with
         | Some loaded => loaded
         | None => loadedImages s
         end.
Proof.
  induction es as [|[i o] es IH]; intros s r req Hr;
    cbn [settleEvents map run fold_left settles fst snd].
  - split; [exact Hr | reflexivity].
  - cbn [step]. unfold imageSettled. rewrite Hr.
    assert (Hlt : (r < List.length (loads s))%nat)
      by (apply nth_error_Some; congruence).
    destruct (settle req i o) as [req1 r1].
    assert (Hset : nth_error (list_set r req1 (loads s)) r = Some req1).
    { rewrite nth_error_list_set, Nat.eqb_refl.
      apply Nat.ltb_lt in Hlt. rewrite Hlt. reflexivity. }
    destruct r1 as [loaded|].
    + specialize (IH (setLoadedImages loaded
                        (set_loads (list_set r req1 (loads s)) s)) r req1).
      rewrite setLoadedImages_loads in IH. specialize (IH Hset).
      fold (settleEvents r es) in IH |- *. fold (run (setLoadedImages loaded
        (set_loads (list_set r req1 (loads s)) s)) (settleEvents r es)).
      destruct IH as [IH1 IH2].
      destruct (settles req1 es) as [req2 r2]. cbn [fst snd] in *.
      split; [exact IH1|]. rewrite IH2.
      destruct r2; [reflexivity|].
      apply setLoadedImages_fields.
    + specialize (IH (set_loads (list_set r req1 (loads s)) s) r req1 Hset).
      fold (settleEvents r es) in IH |- *.
      fold (run (set_loads (list_set r req1 (loads s)) s) (settleEvents r es)).
      destruct IH as [IH1 IH2].
      destruct (settles req1 es) as [req2 r2]. cbn [fst snd] in *.
      split; [exact IH1|]. rewrite IH2. destruct r2; reflexivity.
Qed.

Lemma loadImages_request (srcs : list string) (s : State) :
  srcs <> [] ->
  nth_error (loads (loadImages srcs s)) (List.length (loads s)) =
    Some (freshRequest srcs)
  /\ loadedImages (loadImages srcs s) = loadedImages s.
Proof.
  intro Hne. unfold loadImages. destruct srcs as [|x srcs]; [congruence|].
  cbn [loads set_loads loadedImages]. split; [|reflexivity].
  rewrite nth_error_app2 by lia. rewrite Nat.sub_diag. reflexivity.
Qed.

(** C4.  After [loadImages] has started the loads of [srcs]: when every
    image loads, in whatever order the [onload] events arrive,
    [loadedImages] becomes the list of the [N] loaded images in the order
    of [srcs]; when the events (at most one per image) include an
    [onerror] for one of the images, nothing is committed and
    [loadedImages] is what it was before the call, whatever happened to
    the other images. *)
Theorem preload_all_or_nothing :
  forall (s : State) (srcs : list string),
    let s' := loadImages srcs s in
    let r := List.length (loads s) in
    let N := List.length srcs in
    (forall (w h : nat -> Q) (order : list nat),
        Permutation order (seq 0 N) ->
        let loaded :=
          loadedImages
            (run s' (settleEvents r (map (fun i => (i, Loaded (w i) (h i))) order))) in
        loaded = map (loadedImage srcs w h) (seq 0 N)
        /\ map src loaded = srcs
        /\ List.length loaded = N)
    /\ (forall (es : list (nat * Outcome)) (i : nat),
          NoDup (map fst es) -> In (i, Failed) es -> (i < N)%nat ->
          loadedImages (run s' (settleEvents r es)) = loadedImages s).
Proof.
  intros s srcs s' r N. split.
  - intros w h order Hperm loaded.
    assert (E : loaded = map (loadedImage srcs w h) (seq 0 N)).
    { subst loaded.
      assert (Hcase : srcs = [] \/ srcs <> [])
        by (destruct srcs; [left; reflexivity | right; discriminate]).
      destruct Hcase as [Es | Hne].
      - subst srcs. cbn in Hperm. apply Permutation_sym, Permutation_nil in Hperm.
        subst order. reflexivity.
      - destruct (loadImages_request srcs s Hne) as [Hreq _].
        destruct (run_settleEvents
                    (map (fun i => (i, Loaded (w i) (h i))) order) s' r _ Hreq)
          as [_ Hl].
        rewrite Hl.
        assert (Hfresh : freshRequest srcs =
                         mkRequest (slotsAfter srcs w h []) Pending)
          by (unfold freshRequest at 1;
              rewrite <- (freshRequest_slots srcs w h); reflexivity).
        rewrite Hfresh.
        rewrite (settles_all_loaded srcs w h order []); [reflexivity | | | |].
        + intro Ho. subst order. apply Permutation_nil in Hperm.
          subst N. destruct srcs; [congruence | discriminate Hperm].
        + apply (Permutation_NoDup (Permutation_sym Hperm)). apply seq_NoDup.
        + intros i Hi. apply (Permutation_in _ Hperm) in Hi.
          apply in_seq in Hi. split; [lia | intros []].
        + intros i Hi. left.
          apply (Permutation_in _ (Permutation_sym Hperm)).
          apply in_seq. lia. }
    rewrite E. split; [reflexivity|]. apply expected_sources.
  - intros es i Hnd Hin Hi.
    assert (Hne : srcs <> []) by (subst N; destruct srcs; [cbn in Hi; lia | discriminate]).
    destruct (loadImages_request srcs s Hne) as [Hreq Hsame].
    destruct (run_settleEvents es s' r _ Hreq) as [_ Hl].
    rewrite Hl.
    assert (Hslot : nth_error (req_slots (freshRequest srcs)) i =
                      Some (mkSlot (nth i srcs EmptyString) Pending)).
    { rewrite (freshRequest_slots srcs (fun _ => 0) (fun _ => 0)).
      rewrite nth_error_slotsAfter by exact Hi. reflexivity. }
    rewrite (settles_with_failure _ es i _ Hslot Hnd Hin).
    exact Hsame.
Qed.

(** C4, witness: the four images of [App].  Loaded in the order 2, 0, 3, 1
    they are committed in the order of the sources; when the third fails
    nothing is committed. *)
Lemma preload_all_or_nothing_witness :
  Permutation [2; 0; 3; 1]%nat (seq 0 4) /\
  map src (loadedImages App.loaded) = App.images /\
  List.length (loadedImages App.loaded) = 4%nat /\
  NoDup (map fst App.third_fails) /\ In (2%nat, Failed) App.third_fails /\
  loadedImages (run App.mounted (settleEvents 0 App.third_fails)) = [].
Proof.
  assert (Hperm : Permutation [2; 0; 3; 1]%nat (seq 0 4)).
  { apply NoDup_Permutation.
    - repeat constructor; cbn; lia.
    - apply seq_NoDup.
    - intro x. cbn. lia. }
  assert (Hnd : NoDup (map fst App.third_fails))
    by (repeat constructor; cbn; lia).
  assert (Hin : In (2%nat, Failed) App.third_fails)
    by (right; right; left; reflexivity).
  destruct (preload_all_or_nothing App.initial App.images) as [Hall Hfail].
  pose (w := fun i : nat => nth i [1200; 800; 600; 1280] 0).
  pose (h := fun i : nat => nth i [800; 600; 800; 800] 0).
  destruct (Hall w h [2; 0; 3; 1]%nat Hperm) as (_ & Hsrc & Hlen).
  specialize (Hfail App.third_fails 2%nat Hnd Hin ltac:(cbn; lia)).
  repeat split; assumption.
Defined.

(** ** Superseded requests *)

(** C6 (as amended).  Line 93 has no guard: when the last pending image of
    a request loads while the request's [Promise.all] is pending, the
    images of that request become [loadedImages], whether or not a later
    [loadImages] call has superseded the request.  So [loadedImages] holds
    the result of the request that was resolved last. *)
Theorem resolved_request_is_committed :
  forall (s : State) (r i : nat) (req : LoadRequest) (source : string)
         (w h : Q) (loaded : list Image),
    nth_error (loads s) r = Some req ->
    req_all req = Pending ->
    nth_error (req_slots req) i = Some (mkSlot source Pending) ->
    allFulfilled
      (list_set i (mkSlot source (Fulfilled (mkImage source w h))) (req_slots req)) =
      Some loaded ->
    loadedImages (step s (ImageSettled r i (Loaded w h))) = loaded.
Proof.
  intros s r i req source w h loaded Hr Hall Hslot Hfull.
  cbn [step]. unfold imageSettled. rewrite Hr.
  unfold settle. rewrite Hslot, Hall, Hfull.
  apply setLoadedImages_fields.
Qed.

(** C6, witness: the old image arrives after the new one has been
    committed, and replaces it. *)
Lemma resolved_request_is_committed_witness :
  superseded Race.new_loaded 0 /\
  images Race.new_loaded = ["/new.jpg"%string] /\
  loadedImages Race.new_loaded = [mkImage "/new.jpg" 800 600] /\
  images Race.old_loaded = ["/new.jpg"%string] /\
  loadedImages Race.old_loaded = [mkImage "/old.jpg" 640 480].
Proof.
  split; [unfold superseded; cbn; lia|].
  split; [reflexivity|]. split; [reflexivity|]. split; [reflexivity|].
  apply (resolved_request_is_committed Race.new_loaded 0 0
           (freshRequest ["/old.jpg"%string]) "/old.jpg" 640 480);
    reflexivity.
Defined.

(** C6, as the specification words it, fails: the request for the old list
    is superseded, yet when its image loads the old image is committed
    over the new one. *)
Lemma stale_load_is_committed :
  ~ (forall (s : State) (r i : nat) (o : Outcome),
        reachable s -> superseded s r ->
        loadedImages (step s (ImageSettled r i o)) = loadedImages s).
Proof.
  intro H.
  assert (Hr : reachable Race.new_loaded).
  { unfold Race.new_loaded, Race.replaced.
    apply reach_step; [|reflexivity]. apply reach_step; [|reflexivity].
    apply reach_mount. reflexivity. }
  assert (Hs : superseded Race.new_loaded 0) by (unfold superseded; cbn; lia).
  specialize (H Race.new_loaded 0%nat 0%nat (Loaded 640 480) Hr Hs).
  vm_compute in H. discriminate H.
Qed.

(** ** Further properties of the render and drag paths *)

(** X2.  Dragging to the right from offset 0 leaves the offset at 0. *)
Lemma drag_right_at_origin_clamps :
  forall (s : State) (clientX : Q),
    isDragging s = true -> loadedImages s <> [] ->
    0 <= rect_width (rect s) ->
    scrollRef s == 0 -> startXRef s <= clientX ->
    scrollRef (step s (MouseMove clientX)) == 0.
Proof.
  intros s x Hd Hn Hw Hs Hx.
  cbn [step]. rewrite (handleMouseMove_dragging x s Hd Hn).
  pose proof (maxScroll_nonneg s Hn Hw) as Hm.
  assert (E : Qmax 0 (Qmin (scrollRef s - (x - startXRef s)) (maxScroll s)) == 0).
  { apply Q.max_l.
    apply Qle_trans with (scrollRef s - (x - startXRef s)); [apply Q.le_min_l | lra]. }
  destruct (animationFrame s); cbn; exact E.
Qed.

(** X2, witness: on the page of [App], before any scroll. *)
Lemma drag_right_at_origin_clamps_witness :
  isDragging App.dragging = true /\ scrollRef App.dragging == 0 /\
  scrollRef (step App.dragging (MouseMove 900)) == 0.
Proof.
  split; [reflexivity|]. split; [reflexivity|].
  apply drag_right_at_origin_clamps.
  - reflexivity.
  - vm_compute. discriminate.
  - vm_compute. discriminate.
  - reflexivity.
  - vm_compute. discriminate.
Defined.

(** X4.  Before any image is loaded a resize draws nothing: no listener
    is installed, and only the measured rectangle changes. *)
Lemma resize_before_load_is_noop :
  forall (s : State) (r : DOMRect),
    reachable s -> loadedImages s = [] ->
    step s (WindowResized r) = set_rect r s.
Proof.
  intros s r Hs Hn.
  pose proof (reachable_listener_installed s Hs) as Hinv.
  unfold listener_installed in Hinv.
  cbn [step]. unfold windowResize. cbn [resizeListener set_rect].
  destruct (resizeListener s); [contradiction | reflexivity].
Qed.

(** X4, witness: the page of [App] right after mounting. *)
Lemma resize_before_load_is_noop_witness :
  loadedImages App.mounted = [] /\
  canvasLog (step App.mounted (WindowResized (mkRect 320 200))) = [].
Proof.
  split; [reflexivity|].
  rewrite (resize_before_load_is_noop App.mounted (mkRect 320 200)
             App_mounted_reachable eq_refl).
  reflexivity.
Defined.

(** ** Further properties of the render operation *)

Lemma get_beyond {A : Type} (arr : list A) (i : Z) :
  (Z.of_nat (List.length arr) <= i)%Z -> JS.get arr i = None.
Proof.
  intro H. unfold JS.get.
  destruct (i <? 0)%Z; [reflexivity|].
  apply nth_error_None. lia.
Qed.

(** X1.  When the scroll offset is at or beyond [N * slideWidth] (as it can
    be after the canvas has shrunk or a shorter list was loaded), no slide
    is found at the computed index or after it: the canvas is cleared and
    nothing is drawn. *)
Lemma drawCurrentImages_beyond_last :
  forall (rect : DOMRect) (scroll : Q) (loadedImages : list Image) (bg : string),
    0 < rect_width rect ->
    JS.length loadedImages * rect_width rect <= scroll ->
    drawCurrentImages rect scroll loadedImages bg =
      [ClearRect 0 0 (rect_width rect) (rect_height rect)].
Proof.
  intros rect scroll imgs bg Hw Hs.
  rewrite (drawCurrentImages_positive_width rect scroll imgs bg Hw).
  assert (Hi : (Z.of_nat (List.length imgs) <= Qfloor (scroll / rect_width rect))%Z).
  { rewrite <- (Qfloor_Z (Z.of_nat (List.length imgs))).
    apply Qfloor_resp_le. apply Qle_shift_div_l; assumption. }
  rewrite !get_beyond by lia. reflexivity.
Qed.

(** X1, witness: the page of [App] after the drag to the last slide and
    the resize to 320 by 200. *)
Lemma drawCurrentImages_beyond_last_witness :
  0 < rect_width (rect App.shrunk) /\
  JS.length (loadedImages App.shrunk) * rect_width (rect App.shrunk)
    <= scrollRef App.shrunk /\
  drawCurrentImages (rect App.shrunk) (scrollRef App.shrunk)
    (loadedImages App.shrunk) (backgroundColor App.shrunk) =
    [ClearRect 0 0 320 200].
Proof.
  assert (Hw : 0 < rect_width (rect App.shrunk)) by reflexivity.
  assert (Hs : JS.length (loadedImages App.shrunk) * rect_width (rect App.shrunk)
               <= scrollRef App.shrunk) by (vm_compute; discriminate).
  split; [exact Hw|]. split; [exact Hs|].
  exact (drawCurrentImages_beyond_last _ _ _ _ Hw Hs).
Defined.

Lemma fillSpans_app (l1 l2 : list CanvasOp) :
  fillSpans (l1 ++ l2) = fillSpans l1 ++ fillSpans l2.
Proof.
  induction l1 as [|op l1 IH]; [reflexivity|].
  destruct op; cbn [app fillSpans]; rewrite IH; reflexivity.
Qed.

(** ** Further properties of the image fitter *)

(** X7.  The fitted rectangle depends on the image only through its aspect
    ratio: an image and a copy of it at [k] times the resolution are drawn
    in the same rectangle. *)
Lemma fitRect_image_scale :
  forall (img : Image) (k canvasWidth canvasHeight : Q),
    0 < k -> 0 < width img -> 0 < height img ->
    0 < canvasWidth -> 0 < canvasHeight ->
    DrawRect_eq
      (fitRect (mkImage (src img) (k * width img) (k * height img))
         canvasWidth canvasHeight)
      (fitRect img canvasWidth canvasHeight).
Proof.
  intros img k cw ch Hk Hiw Hih Hcw Hch.
  set (img' := mkImage (src img) (k * width img) (k * height img)).
  assert (Hiw' : 0 < width img') by (cbn; apply Qmult_lt_0_compat; assumption).
  assert (Hih' : 0 < height img') by (cbn; apply Qmult_lt_0_compat; assumption).
  assert (Hratio : width img' / height img' == width img / height img)
    by (cbn; field; split; lra).
  pose proof (imgRatio_pos img Hiw Hih) as HR.
  unfold DrawRect_eq.
  destruct (Qlt_le_dec (cw / ch) (width img / height img)) as [Hlt | Hle].
  - destruct (fitRect_wide img cw ch) as [E _]; try assumption.
    destruct (fitRect_wide img' cw ch) as [E' _]; try assumption.
    { rewrite Hratio. exact Hlt. }
    rewrite E, E'. cbn [drawX drawY drawWidth drawHeight].
    rewrite Hratio. repeat split; reflexivity.
  - destruct (fitRect_tall img cw ch) as [E _]; try assumption.
    destruct (fitRect_tall img' cw ch) as [E' _]; try assumption.
    { rewrite Hratio. exact Hle. }
    rewrite E, E'. cbn [drawX drawY drawWidth drawHeight].
    rewrite Hratio. repeat split; reflexivity.
Qed.

(** X7, witness: a 1600 by 1200 image and its 800 by 600 copy. *)
Lemma fitRect_image_scale_witness :
  DrawRect_eq (fitRect (mkImage "/images/1.jpg" (2 * 800) (2 * 600)) 640 400)
              (fitRect (mkImage "/images/1.jpg" 800 600) 640 400).
Proof.
  apply (fitRect_image_scale (mkImage "/images/1.jpg" 800 600) 2 640 400);
    reflexivity.
Defined.

(** X8.  Scaling the target rectangle by [k] scales the fitted rectangle by
    [k]: the picture is laid out the same way at every canvas size. *)
Lemma fitRect_canvas_scale :
  forall (img : Image) (k canvasWidth canvasHeight : Q),
    0 < k -> 0 < width img -> 0 < height img ->
    0 < canvasWidth -> 0 < canvasHeight ->
    DrawRect_eq
      (fitRect img (k * canvasWidth) (k * canvasHeight))
      (scaleRect k (fitRect img canvasWidth canvasHeight)).
Proof.
  intros img k cw ch Hk Hiw Hih Hcw Hch.
  assert (Hcw' : 0 < k * cw) by (apply Qmult_lt_0_compat; assumption).
  assert (Hch' : 0 < k * ch) by (apply Qmult_lt_0_compat; assumption).
  assert (Hratio : k * cw / (k * ch) == cw / ch) by (field; split; lra).
  pose proof (imgRatio_pos img Hiw Hih) as HR.
  unfold DrawRect_eq, scaleRect.
  destruct (Qlt_le_dec (cw / ch) (width img / height img)) as [Hlt | Hle].
  - destruct (fitRect_wide img cw ch) as [E _]; try assumption.
    destruct (fitRect_wide img (k * cw) (k * ch)) as [E' _]; try assumption.
    { rewrite Hratio. exact Hlt. }
    rewrite E, E'. cbn [drawX drawY drawWidth drawHeight].
    set (R := width img / height img) in *.
    repeat split; first [ring | field; lra].
  - destruct (fitRect_tall img cw ch) as [E _]; try assumption.
    destruct (fitRect_tall img (k * cw) (k * ch)) as [E' _]; try assumption.
    { rewrite Hratio. exact Hle. }
    rewrite E, E'. cbn [drawX drawY drawWidth drawHeight].
    set (R := width img / height img) in *.
    repeat split; first [ring | field; lra].
Qed.

(** X8, witness: the 640 by 400 canvas and the same canvas at half the
    size. *)
Lemma fitRect_canvas_scale_witness :
  DrawRect_eq (fitRect (mkImage "/images/1.jpg" 800 600) ((1 # 2) * 640) ((1 # 2) * 400))
              (scaleRect (1 # 2) (fitRect (mkImage "/images/1.jpg" 800 600) 640 400)).
Proof.
  apply (fitRect_canvas_scale (mkImage "/images/1.jpg" 800 600) (1 # 2) 640 400);
    reflexivity.
Defined.

(** ** Further properties of the drag controller *)

(** X9.  From an offset within bounds, a [mousemove] while dragging moves
    the offset against the pointer and never farther than the pointer
    went: a move to the left ([dx <= 0]) leaves the offset between the old
    offset and [old - dx], a move to the right between [old - dx] and the
    old offset. *)
Lemma drag_follows_direction :
  forall (s : State) (clientX : Q),
    isDragging s = true -> loadedImages s <> [] -> scroll_in_range s ->
    let dx := clientX - startXRef s in
    let s' := step s (MouseMove clientX) in
    (dx <= 0 -> scrollRef s <= scrollRef s' /\ scrollRef s' <= scrollRef s - dx)
    /\ (0 <= dx -> scrollRef s - dx <= scrollRef s' /\ scrollRef s' <= scrollRef s).
Proof.
  intros s x Hd Hn [H0 Hmax] dx s'.
  assert (E : scrollRef s' = Qmax 0 (Qmin (scrollRef s - dx) (maxScroll s))).
  { subst s'. cbn [step]. rewrite (handleMouseMove_dragging x s Hd Hn).
    destruct (animationFrame s); reflexivity. }
  rewrite E. clear E.
  destruct (Q.min_spec (scrollRef s - dx) (maxScroll s)) as [[Hc Em] | [Hc Em]];
    destruct (Q.max_spec 0 (Qmin (scrollRef s - dx) (maxScroll s)))
      as [[Hc' EM] | [Hc' EM]];
    rewrite EM; rewrite ?Em in *; split; intro Hdx; split; lra.
Qed.

(** X9, witness: on the page of [App], 120 pixels to the left. *)
Lemma drag_follows_direction_witness :
  scroll_in_range App.dragging /\
  scrollRef App.dragging <= scrollRef (step App.dragging (MouseMove 200)) /\
  scrollRef (step App.dragging (MouseMove 200)) <=
    scrollRef App.dragging - (200 - startXRef App.dragging).
Proof.
  assert (Hr : scroll_in_range App.dragging)
    by (split; vm_compute; discriminate).
  split; [exact Hr|].
  apply (drag_follows_direction App.dragging 200).
  - reflexivity.
  - vm_compute. discriminate.
  - exact Hr.
  - vm_compute. discriminate.
Defined.

Lemma last_cons_default {A : Type} (xs : list A) (x d : A) :
  last (x :: xs) d = last xs x.
Proof.
  revert x d. induction xs as [|y xs IH]; intros x d; [reflexivity|].
  change (last (x :: y :: xs) d) with (last (y :: xs) d).
  rewrite (IH y d). symmetry. apply IH.
Qed.

Lemma moves_track_anchor (xs : list Q) :
  forall (s : State) (A : Q),
    isDragging s = true -> loadedImages s <> [] ->
    scrollRef s + startXRef s == A ->
    Forall (fun x => 0 <= A - x /\ A - x <= maxScroll s) xs ->
    scrollRef (run s (map MouseMove xs)) + startXRef (run s (map MouseMove xs)) == A
    /\ startXRef (run s (map MouseMove xs)) = last xs (startXRef s).
Proof.
  induction xs as [|x xs IH]; intros s A Hd Hn HA Hall;
    cbn [map run fold_left].
  - split; [exact HA | reflexivity].
  - inversion Hall as [|? ? [Hx0 Hx1] Hall']; subst.
    destruct (handleMouseMove_frame x s) as (Hd' & Hl' & Hr' & _).
    set (s1 := step s (MouseMove x)).
    assert (Hstart : startXRef s1 = x /\
                     scrollRef s1 =
                       Qmax 0 (Qmin (scrollRef s - (x - startXRef s)) (maxScroll s))).
    { subst s1. cbn [step]. rewrite (handleMouseMove_dragging x s Hd Hn).
      destruct (animationFrame s); split; reflexivity. }
    destruct Hstart as [Hsx Hss].
    assert (Hp : scrollRef s - (x - startXRef s) == A - x) by lra.
    assert (Hs1 : scrollRef s1 == A - x).
    { rewrite Hss.
      rewrite (Q.min_l _ _) by lra.
      rewrite (Q.max_r _ _) by lra. exact Hp. }
    assert (Hm : maxScroll s1 = maxScroll s)
      by (unfold maxScroll; subst s1; cbn [step]; rewrite Hl', Hr'; reflexivity).
    fold (run s1 (map MouseMove xs)).
    destruct (IH s1 A) as [IH1 IH2].
    + subst s1. cbn [step]. rewrite Hd'. exact Hd.
    + subst s1. cbn [step]. rewrite Hl'. exact Hn.
    + rewrite Hsx. lra.
    + rewrite Hm. exact Hall'.
    + split; [exact IH1|]. rewrite IH2, Hsx.
      symmetry. apply last_cons_default.
Qed.

(** X10.  While dragging, as long as every pointer position of a sequence
    of [mousemove] events asks for an offset within bounds, the content
    follows the pointer exactly: the final offset is the initial offset
    minus the pointer's total displacement, whatever path it took. *)
Lemma drag_tracks_pointer :
  forall (s : State) (xs : list Q),
    isDragging s = true -> loadedImages s <> [] ->
    Forall (fun x => 0 <= scrollRef s - (x - startXRef s)
                     /\ scrollRef s - (x - startXRef s) <= maxScroll s) xs ->
    scrollRef (run s (map MouseMove xs)) ==
      scrollRef s - (last xs (startXRef s) - startXRef s).
Proof.
  intros s xs Hd Hn Hall.
  destruct (moves_track_anchor xs s (scrollRef s + startXRef s) Hd Hn)
    as [H1 H2].
  - reflexivity.
  - eapply Forall_impl; [|exact Hall].
    intros x [Ha Hb]. cbv beta. split; lra.
  - rewrite H2 in H1. lra.
Qed.

(** X10, witness: on the page of [App], left by 500, back right by 300,
    left again by 100: the offset ends at 300. *)
Lemma drag_tracks_pointer_witness :
  scrollRef (run App.dragging (map MouseMove [-180; 120; 20])) == 300.
Proof.
  rewrite (drag_tracks_pointer App.dragging [-180; 120; 20]).
  - reflexivity.
  - reflexivity.
  - vm_compute. discriminate.
  - repeat constructor; vm_compute; discriminate.
Defined.

Lemma fold_runCallback_startX (q : list FrameCallback) (s : State) :
  startXRef (fold_left runCallback q s) = startXRef s.
Proof.
  revert s. induction q as [|cb q IH]; intro s; cbn [fold_left];
    [reflexivity | rewrite IH; reflexivity].
Qed.

(** What one event does to the drag state. *)
Lemma step_isDragging (s : State) (e : Event) :
  isDragging (step s e) =
    match e with
    | MouseDown _ => true
    | MouseUp => false
    | _ => isDragging s
    end.
Proof.
  destruct e; try solve [frame_cases].
  - apply handleMouseMove_frame.
  - apply animationFrameTick_frame.
Qed.

(** X11.  Only the mouse button starts or ends a drag: after any run of
    events, [isDragging] (and with it the cursor) is what the last
    [mousedown] or [mouseup] of the run left, and what it was before when
    the run has neither; loads, resizes, frames and prop changes do not
    touch it. *)
Lemma isDragging_is_button_state :
  forall (s : State) (es : list Event),
    isDragging (run s es) = buttonState (isDragging s) es
    /\ cursor (run s es) =
         (if buttonState (isDragging s) es then "grabbing" else "grab")%string.
Proof.
  intros s es.
  assert (H : isDragging (run s es) = buttonState (isDragging s) es).
  { revert s. induction es as [|e es IH]; intro s; [reflexivity|].
    unfold run, buttonState in *. cbn [fold_left].
    rewrite IH, step_isDragging. destruct e; reflexivity. }
  split; [exact H|]. unfold cursor. rewrite H. reflexivity.
Qed.

Lemma idle_step (s : State) (e : Event) :
  isDragging s = false -> isMouseDown e = false ->
  scrollRef (step s e) = scrollRef s
  /\ startXRef (step s e) = startXRef s
  /\ isDragging (step s e) = false.
Proof.
  intros Hd He.
  destruct e as [srcs | color | r i o | x | x | | r | d | ]; try discriminate He.
  - unfold_handlers; break_matches; cbn; auto.
  - unfold_handlers; break_matches; cbn; auto.
  - unfold_handlers; break_matches; cbn; auto.
  - cbn [step]. rewrite handleMouseMove_ignored by (left; exact Hd). auto.
  - cbn; auto.
  - unfold_handlers; break_matches; cbn; auto.
  - cbn; auto.
  - cbn [step]. destruct (animationFrameTick_frame s) as (Hs & _ & _ & _ & Hi & _).
    split; [exact Hs|]. split; [|congruence].
    unfold animationFrameTick. rewrite fold_runCallback_startX. reflexivity.
Qed.

(** X3.  While no drag is in progress, no run of events without a
    [mousedown] changes the scroll offset: pointer moves, resizes, loads,
    frames and prop changes leave [scrollRef] (and [startXRef]) as they
    are, and the component stays idle. *)
Lemma idle_never_scrolls :
  forall (s : State) (es : list Event),
    isDragging s = false ->
    forallb (fun e => negb (isMouseDown e)) es = true ->
    scrollRef (run s es) = scrollRef s
    /\ startXRef (run s es) = startXRef s
    /\ isDragging (run s es) = false.
Proof.
  intros s es. revert s.
  induction es as [|e es IH]; intros s Hd Hes; cbn [run fold_left].
  - auto.
  - cbn [forallb] in Hes. apply andb_true_iff in Hes. destruct Hes as [He Hes].
    apply negb_true_iff in He.
    destruct (idle_step s e Hd He) as (H1 & H2 & H3).
    destruct (IH (step s e) H3 Hes) as (G1 & G2 & G3).
    unfold run in *. repeat split; congruence.
Qed.

(** X3, witness: the page of [App] with its images loaded and no button
    pressed. *)
Lemma idle_never_scrolls_witness :
  isDragging App.loaded = false /\
  scrollRef (run App.loaded
               [ MouseMove 100; WindowResized (mkRect 320 200); MouseUp;
                 MouseMove 500; AnimationFrame; PixelRatioChanged 2 ]) = 0.
Proof.
  split; [reflexivity|].
  apply (idle_never_scrolls App.loaded
           [ MouseMove 100; WindowResized (mkRect 320 200); MouseUp;
             MouseMove 500; AnimationFrame; PixelRatioChanged 2 ]);
    reflexivity.
Defined.

(** ** Further properties of the preloader *)

Lemma set_loads_set_loads (l1 l2 : list LoadRequest) (s : State) :
  set_loads l1 (set_loads l2 s) = set_loads l1 s.
Proof. reflexivity. Qed.

(** Events of a request that resolve nothing change nothing but the
    bookkeeping of the promises. *)
Lemma run_settleEvents_quiet (es : list (nat * Outcome)) :
  forall (s : State) (r : nat) (req : LoadRequest),
    nth_error (loads s) r = Some req ->
    snd (settles req es) = None ->
    run s (settleEvents r es) = set_loads (loads (run s (settleEvents r es))) s.
Proof.
  induction es as [|[i o] es IH]; intros s r req Hr Hnone;
    cbn [settleEvents map run fold_left settles fst snd] in *.
  - destruct s; reflexivity.
  - cbn [step]. unfold imageSettled. rewrite Hr.
    assert (Hlt : (r < List.length (loads s))%nat)
      by (apply nth_error_Some; congruence).
    destruct (settle req i o) as [req1 r1].
    destruct (settles req1 es) as [req2 r2] eqn:E2. cbn [snd] in Hnone.
    destruct r2 as [l|]; [discriminate Hnone|]. subst r1.
    assert (Hset : nth_error (list_set r req1 (loads s)) r = Some req1).
    { rewrite nth_error_list_set, Nat.eqb_refl.
      apply Nat.ltb_lt in Hlt. rewrite Hlt. reflexivity. }
    specialize (IH (set_loads (list_set r req1 (loads s)) s) r req1 Hset).
    rewrite E2 in IH. specialize (IH eq_refl).
    fold (settleEvents r es) in IH |- *.
    unfold run in IH |- *. rewrite IH at 1.
    apply set_loads_set_loads.
Qed.

Lemma pending_quiet (s : State) (r i : nat) (req : LoadRequest) (source : string)
    (es : list (nat * Outcome)) :
  nth_error (loads s) r = Some req ->
  nth_error (req_slots req) i = Some (mkSlot source Pending) ->
  ~ In i (map fst es) ->
  run s (settleEvents r es) = set_loads (loads (run s (settleEvents r es))) s.
Proof.
  intros Hr Hslot Hnot.
  apply (run_settleEvents_quiet es s r req Hr).
  apply (settles_while_pending es req i source Hslot Hnot).
Qed.

(** X16.  While one image of a request is still pending, the events of the
    other images of that request, whatever they are and in whatever
    order, change nothing a user can observe: no image is committed,
    nothing is drawn, no listener or frame is touched; only the record of
    the promises changes. *)
Lemma pending_request_changes_nothing :
  forall (s : State) (r i : nat) (req : LoadRequest) (source : string)
         (es : list (nat * Outcome)),
    nth_error (loads s) r = Some req ->
    nth_error (req_slots req) i = Some (mkSlot source Pending) ->
    ~ In i (map fst es) ->
    run s (settleEvents r es) = set_loads (loads (run s (settleEvents r es))) s.
Proof.
  intros s r i req source es. apply pending_quiet.
Qed.

(** X16, witness: three of the four images of [App] have loaded. *)
Lemma pending_request_changes_nothing_witness :
  loadedImages
    (run App.mounted
       (settleEvents 0 [ (2%nat, Loaded 600 800); (0%nat, Loaded 1200 800);
                         (3%nat, Loaded 1280 800) ])) = []
  /\ canvasLog
       (run App.mounted
          (settleEvents 0 [ (2%nat, Loaded 600 800); (0%nat, Loaded 1200 800);
                            (3%nat, Loaded 1280 800) ])) = [].
Proof.
  rewrite (pending_request_changes_nothing App.mounted 0 1
             (freshRequest App.images) "/images/1.jpg"
             [ (2%nat, Loaded 600 800); (0%nat, Loaded 1200 800);
               (3%nat, Loaded 1280 800) ]).
  - split; reflexivity.
  - reflexivity.
  - reflexivity.
  - cbn. intuition discriminate.
Defined.

(** X17.  A request whose [Promise.all] has been resolved or rejected
    never commits (again): later [onload] or [onerror] events of its
    images change nothing but the record of the promises.  In particular
    a failed preload is not revived by the images that load after the
    failure. *)
Lemma settled_request_commits_nothing :
  forall (s : State) (r : nat) (req : LoadRequest) (es : list (nat * Outcome)),
    nth_error (loads s) r = Some req ->
    req_all req <> Pending ->
    run s (settleEvents r es) = set_loads (loads (run s (settleEvents r es))) s.
Proof.
  intros s r req es Hr Hall.
  apply (run_settleEvents_quiet es s r req Hr).
  apply settles_after_settled. exact Hall.
Qed.

(** X17, witness: on the page of [App] the first image fails; the other
    three load afterwards and nothing is shown. *)
Lemma settled_request_commits_nothing_witness :
  loadedImages
    (run (step App.mounted (ImageSettled 0 0 Failed))
       (settleEvents 0 [ (1%nat, Loaded 800 600); (2%nat, Loaded 600 800);
                         (3%nat, Loaded 1280 800) ])) = []
  /\ canvasLog
       (run (step App.mounted (ImageSettled 0 0 Failed))
          (settleEvents 0 [ (1%nat, Loaded 800 600); (2%nat, Loaded 600 800);
                            (3%nat, Loaded 1280 800) ])) = [].
Proof.
  rewrite (settled_request_commits_nothing
             (step App.mounted (ImageSettled 0 0 Failed)) 0
             (mkRequest
                (list_set 0 (mkSlot "/images/0.jpg" Rejected)
                   (req_slots (freshRequest App.images)))
                Rejected)).
  - split; reflexivity.
  - reflexivity.
  - discriminate.
Defined.

(** ** Further properties of the redraw paths *)

(** A [mousemove] with a frame already requested requests nothing and
    draws nothing. *)
Lemma handleMouseMove_frame_pending (x : Q) (s : State) (id : nat) :
  animationFrame s = Some id ->
  animationFrame (handleMouseMove x s) = Some id
  /\ frameQueue (handleMouseMove x s) = frameQueue s
  /\ backgroundColor (handleMouseMove x s) = backgroundColor s.
Proof.
  intro Ha. unfold handleMouseMove.
  destruct (negb (isDragging s) || noImages s); [auto|].
  cbn [animationFrame set_scrollRef set_startXRef]. rewrite Ha. cbn. auto.
Qed.

Lemma moves_frame_pending (xs : list Q) :
  forall (s : State) (id : nat),
    animationFrame s = Some id ->
    animationFrame (run s (map MouseMove xs)) = Some id
    /\ frameQueue (run s (map MouseMove xs)) = frameQueue s
    /\ canvasLog (run s (map MouseMove xs)) = canvasLog s
    /\ rect (run s (map MouseMove xs)) = rect s.
Proof.
  induction xs as [|x xs IH]; intros s id Ha; cbn [map run fold_left].
  - auto.
  - destruct (handleMouseMove_frame_pending x s id Ha) as (Ha' & Hq' & _).
    destruct (handleMouseMove_frame x s) as (_ & _ & Hr' & Hl' & _).
    destruct (IH (step s (MouseMove x)) id Ha') as (G1 & G2 & G3 & G4).
    unfold run in *. cbn [step] in *. repeat split; congruence.
Qed.

(** X12.  Any burst of one or more [mousemove] events received while
    dragging, with no frame requested before, draws nothing by itself and
    leaves exactly one frame requested; that frame paints once, with the
    scroll offset reached at the end of the burst, and clears the
    request. *)
Lemma burst_paints_once :
  forall (s : State) (x : Q) (xs : list Q),
    isDragging s = true -> loadedImages s <> [] ->
    animationFrame s = None -> frameQueue s = [] ->
    let s1 := run s (map MouseMove (x :: xs)) in
    canvasLog s1 = canvasLog s
    /\ List.length (frameQueue s1) = 1%nat
    /\ canvasLog (step s1 AnimationFrame) =
         canvasLog s ++
         drawCurrentImages (rect s) (scrollRef s1) (loadedImages s)
           (backgroundColor s)
    /\ frameQueue (step s1 AnimationFrame) = []
    /\ animationFrame (step s1 AnimationFrame) = None.
Proof.
  intros s x xs Hd Hn Ha Hq s1.
  set (s0 := step s (MouseMove x)).
  assert (H0 : animationFrame s0 = Some (nextFrameId s)
               /\ frameQueue s0 =
                    [mkCallback (nextFrameId s) (loadedImages s) (backgroundColor s)]
               /\ canvasLog s0 = canvasLog s /\ rect s0 = rect s).
  { subst s0. cbn [step]. rewrite (handleMouseMove_dragging x s Hd Hn), Ha.
    cbn. rewrite Hq. auto. }
  destruct H0 as (Ha0 & Hq0 & Hl0 & Hr0).
  destruct (moves_frame_pending xs s0 _ Ha0) as (Ha1 & Hq1 & Hl1 & Hr1).
  subst s1.
  change (run s (map MouseMove (x :: xs))) with (run s0 (map MouseMove xs)).
  remember (run s0 (map MouseMove xs)) as s1 eqn:E. clear E.
  rewrite Hq0 in Hq1.
  split; [congruence|]. split; [rewrite Hq1; reflexivity|].
  cbn [step]. unfold animationFrameTick. rewrite Hq1.
  cbn [fold_left runCallback set_animationFrame set_frameQueue draw set_canvasLog
       canvasLog frameQueue animationFrame rect scrollRef
       cb_loadedImages cb_backgroundColor].
  rewrite Hl1, Hl0, Hr1, Hr0. auto.
Qed.

(** X12, witness: on the page of [App], three moves and then the frame. *)
Lemma burst_paints_once_witness :
  canvasLog (run App.dragging (map MouseMove [200; 150; 20])) =
    canvasLog App.dragging /\
  canvasLog (step (run App.dragging (map MouseMove [200; 150; 20])) AnimationFrame) =
    canvasLog App.dragging ++
    drawCurrentImages (mkRect 640 400)
      (scrollRef (run App.dragging (map MouseMove [200; 150; 20])))
      (loadedImages App.dragging) "#F2F2F2".
Proof.
  destruct (burst_paints_once App.dragging 200 [150; 20])
    as (H1 & _ & H2 & _); try reflexivity.
  - vm_compute. discriminate.
  - split; [exact H1 | exact H2].
Defined.

(** While nothing is loaded: no listener, no frame, an untouched canvas. *)
Lemma blank_step (s : State) (e : Event) :
  loadedImages s = [] -> resizeListener s = None ->
  frameQueue s = [] -> canvasLog s = [] ->
  loadedImages (step s e) = [] ->
  resizeListener (step s e) = None
  /\ frameQueue (step s e) = [] /\ canvasLog (step s e) = [].
Proof.
  intros Hn Hl Hq Hc Hn'.
  destruct e as [srcs | color | r i o | x | x | | r | d | ].
  - cbn [step]. unfold loadImages, setLoadedImages, resizeEffect.
    destruct srcs; cbn; auto.
  - cbn [step]. unfold resizeEffect, noImages. cbn. rewrite Hn. cbn. auto.
  - cbn [step] in *. unfold imageSettled in *.
    destruct (nth_error (loads s) r); [|auto].
    destruct (settle l i o) as [req' [loaded|]]; [|cbn; auto].
    destruct (setLoadedImages_fields loaded
                (set_loads (list_set r req' (loads s)) s)) as [El _].
    rewrite El in Hn'. subst loaded.
    unfold setLoadedImages, resizeEffect; cbn. auto.
  - cbn; auto.
  - cbn [step]. rewrite handleMouseMove_ignored by (right; exact Hn). auto.
  - cbn; auto.
  - cbn [step]. unfold windowResize. cbn [resizeListener set_rect].
    rewrite Hl. cbn. auto.
  - cbn; auto.
  - cbn [step]. unfold animationFrameTick. rewrite Hq. cbn. auto.
Qed.

(** X14.  Nothing is drawn and no frame is requested as long as no
    non-empty image set has been committed: from the first render on,
    through any run of events during which [loadedImages] stays empty
    (drags, resizes, frames, prop changes, loads that are still partial or
    have failed, an empty [images] list), the canvas stays untouched. *)
Lemma nothing_drawn_before_images :
  forall (imgs : list string) (bg : string) (r : DOMRect) (dpr : Q)
         (es : list Event),
    Forall (fun s => loadedImages s = []) (states (mount imgs bg r dpr) es) ->
    canvasLog (run (mount imgs bg r dpr) es) = []
    /\ frameQueue (run (mount imgs bg r dpr) es) = []
    /\ resizeListener (run (mount imgs bg r dpr) es) = None.
Proof.
  intros imgs bg r dpr es.
  destruct (mount_fields imgs bg r dpr) as (_ & _ & Hn & Hl & _ & Hq).
  assert (Hc : canvasLog (mount imgs bg r dpr) = [])
    by (unfold mount; destruct imgs; reflexivity).
  generalize dependent (mount imgs bg r dpr). intro s. revert s.
  induction es as [|e es IH]; intros s Hn Hl Hq Hc Hall;
    cbn [states run fold_left] in *.
  - auto.
  - inversion Hall as [|? ? Hn' Hall']; subst.
    destruct (blank_step s e Hn Hl Hq Hc Hn') as (Hl' & Hq' & Hc').
    exact (IH (step s e) Hn' Hl' Hq' Hc' Hall').
Qed.

(** X14, witness: on the page of [App], a drag, a resize, a frame and two
    of the four loads before anything is committed. *)
Lemma nothing_drawn_before_images_witness :
  canvasLog
    (run App.mounted
       [ MouseDown 320; MouseMove 100; WindowResized (mkRect 320 200);
         ImageSettled 0 1 (Loaded 800 600); AnimationFrame;
         ImageSettled 0 3 (Loaded 1280 800); BackgroundChanged "#000000" ]) = [].
Proof.
  apply (nothing_drawn_before_images App.images "#F2F2F2" (mkRect 640 400) 1).
  repeat constructor.
Defined.

(** ** A drag that starts before the images have loaded *)






Lemma run_app (s : State) (es1 es2 : list Event) :
  run s (es1 ++ es2) = run (run s es1) es2.
Proof. unfold run. apply fold_left_app. Qed.

(** X13.  The first paint.  Once every image of the initial list has
    loaded, in whatever order, the component sizes the backing store to
    the canvas's logical size times [devicePixelRatio || 1], resets and
    scales the transform, and draws the slides for scroll offset 0, all
    without any user action; nothing was drawn before, and the resize
    listener is installed. *)
Lemma first_paint_after_load :
  forall (srcs : list string) (bg : string) (r : DOMRect) (dpr : Q)
         (w h : nat -> Q) (order : list nat),
    srcs <> [] ->
    Permutation order (seq 0 (List.length srcs)) ->
    let s := run (mount srcs bg r dpr)
               (settleEvents 0 (map (fun i => (i, Loaded (w i) (h i))) order)) in
    let d := JS.or1 dpr in
    canvasLog s =
      [ SetCanvasWidth (rect_width r * d); SetCanvasHeight (rect_height r * d);
        SetTransform 1 0 0 1 0 0; Scale d d ]
      ++ drawCurrentImages r 0
           (map (loadedImage srcs w h) (seq 0 (List.length srcs))) bg
    /\ resizeListener s = Some d
    /\ scrollRef s = 0.
Proof.
  intros srcs bg r dpr w h order Hne Hperm s d. subst s d.
  set (N := List.length srcs) in *.
  set (expected := map (loadedImage srcs w h) (seq 0 N)).
  set (f := fun i : nat => (i, Loaded (w i) (h i))).
  set (m := mount srcs bg r dpr).
  set (s := run m (settleEvents 0 (map f order))).
  assert (Hm : m = set_loads [freshRequest srcs] (firstRender srcs bg r dpr)).
  { subst m. unfold mount, loadImages. destruct srcs; [congruence | reflexivity]. }
  assert (Hreq : nth_error (loads m) 0 = Some (freshRequest srcs))
    by (rewrite Hm; reflexivity).
  assert (Hnd : NoDup order)
    by (apply (Permutation_NoDup (Permutation_sym Hperm)); apply seq_NoDup).
  assert (Hin : forall i, In i order <-> (i < N)%nat).
  { intro i. split; intro Hi.
    - apply (Permutation_in _ Hperm) in Hi. apply in_seq in Hi. lia.
    - apply (Permutation_in _ (Permutation_sym Hperm)). apply in_seq. lia. }
  assert (Hexp : expected <> []).
  { subst expected N. destruct srcs; [congruence | discriminate]. }
  (* the images committed at the end *)
  assert (Hloaded : loadedImages s = expected).
  { destruct (run_settleEvents (map f order) m 0 _ Hreq) as [_ Hl].
    subst s. rewrite Hl.
    assert (Hfresh : freshRequest srcs = mkRequest (slotsAfter srcs w h []) Pending)
      by (unfold freshRequest at 1;
          rewrite <- (freshRequest_slots srcs w h); reflexivity).
    rewrite Hfresh. unfold f.
    rewrite (settles_all_loaded srcs w h order []); [reflexivity | | | |].
    - intro Ho. subst order. apply Permutation_nil in Hperm.
      subst N. destruct srcs; [congruence | discriminate Hperm].
    - exact Hnd.
    - intros i Hi. split; [apply Hin; exact Hi | intros []].
    - intros i Hi. left. apply Hin. exact Hi. }
  (* the last event is the one that commits *)
  destruct (exists_last (l := order)) as (init & i & Eo).
  { intro Ho. subst order. apply Permutation_nil in Hperm.
    subst N. destruct srcs; [congruence | discriminate Hperm]. }
  assert (Hi : (i < N)%nat) by (apply Hin; rewrite Eo; apply in_or_app; right; left; reflexivity).
  assert (Hnot : ~ In i (map fst (map f init))).
  { rewrite map_map. cbn [f fst]. rewrite map_id.
    rewrite Eo in Hnd. apply NoDup_remove_2 in Hnd. rewrite app_nil_r in Hnd.
    exact Hnd. }
  assert (Hslot : nth_error (req_slots (freshRequest srcs)) i =
                    Some (mkSlot (nth i srcs EmptyString) Pending)).
  { rewrite (freshRequest_slots srcs w h).
    rewrite nth_error_slotsAfter by exact Hi. reflexivity. }
  pose proof (pending_quiet m 0 i (freshRequest srcs) _ (map f init)
                Hreq Hslot Hnot) as Hquiet.
  assert (Es : s = step (run m (settleEvents 0 (map f init)))
                     (ImageSettled 0 i (Loaded (w i) (h i)))).
  { subst s. rewrite Eo. unfold settleEvents. rewrite !map_app, run_app.
    reflexivity. }
  set (s1 := run m (settleEvents 0 (map f init))) in *.
  assert (Hs1 : loadedImages s1 = [] /\ canvasLog s1 = [] /\ rect s1 = r
                /\ scrollRef s1 = 0 /\ devicePixelRatio s1 = dpr
                /\ backgroundColor s1 = bg).
  { rewrite Hquiet, Hm. repeat split. }
  destruct Hs1 as (Hl1 & Hc1 & Hr1 & Hsc1 & Hd1 & Hb1).
  rewrite Es in Hloaded |- *. cbn [step] in Hloaded |- *.
  unfold imageSettled in Hloaded |- *.
  destruct (nth_error (loads s1) 0) as [req1|];
    [|rewrite Hl1 in Hloaded; congruence].
  destruct (settle req1 i (Loaded (w i) (h i))) as [req' [loaded|]];
    [|cbn in Hloaded; rewrite Hl1 in Hloaded; congruence].
  destruct (setLoadedImages_fields loaded
              (set_loads (list_set 0 req' (loads s1)) s1)) as [El _].
  rewrite El in Hloaded. subst loaded.
  unfold setLoadedImages, resizeEffect, noImages.
  cbn [loadedImages set_loadedImages set_loads].
  destruct expected as [|e0 rest] eqn:Ee; [congruence|].
  cbn [List.length Nat.eqb].
  unfold resizeCanvas, draw.
  cbn [canvasLog set_resizeListener set_canvasLog resizeListener scrollRef rect
       devicePixelRatio backgroundColor loadedImages set_loadedImages set_loads].
  rewrite Hc1, Hr1, Hsc1, Hd1, Hb1. repeat split.
Qed.

(** X13, witness: the page of [App], its images loading in the order
    2, 0, 3, 1. *)
Lemma first_paint_after_load_witness :
  Permutation [2; 0; 3; 1]%nat (seq 0 (List.length App.images)) /\
  canvasLog
    (run (mount App.images "#F2F2F2" (mkRect 640 400) 1)
       (settleEvents 0
          (map (fun i => (i, Loaded (nth i [1200; 800; 600; 1280] 0)
                               (nth i [800; 600; 800; 800] 0)))
             [2; 0; 3; 1]%nat))) =
    [ SetCanvasWidth (rect_width (mkRect 640 400) * JS.or1 1);
      SetCanvasHeight (rect_height (mkRect 640 400) * JS.or1 1);
      SetTransform 1 0 0 1 0 0; Scale (JS.or1 1) (JS.or1 1) ]
    ++ drawCurrentImages (mkRect 640 400) 0
         (map (loadedImage App.images
                 (fun i => nth i [1200; 800; 600; 1280] 0)
                 (fun i => nth i [800; 600; 800; 800] 0))
            (seq 0 (List.length App.images))) "#F2F2F2".
Proof.
  assert (Hperm : Permutation [2; 0; 3; 1]%nat (seq 0 (List.length App.images))).
  { apply NoDup_Permutation.
    - repeat constructor; cbn; lia.
    - apply seq_NoDup.
    - intro x. cbn. lia. }
  split; [exact Hperm|].
  assert (Hne : App.images <> []) by discriminate.
  exact (proj1 (first_paint_after_load App.images "#F2F2F2" (mkRect 640 400) 1
                  (fun i => nth i [1200; 800; 600; 1280] 0)
                  (fun i => nth i [800; 600; 800; 800] 0)
                  [2; 0; 3; 1]%nat Hne Hperm)).
Defined.

Lemma or1_nonzero (x : Q) : ~ JS.or1 x == 0.
Proof.
  unfold JS.or1. destruct (Qeq_bool x 0) eqn:E.
  - intro H. discriminate H.
  - intro H. apply Qeq_bool_iff in H. congruence.
Qed.

Lemma drawCurrentImages_transform rect scroll imgs bg :
  Forall transform_ok (drawCurrentImages rect scroll imgs bg).
Proof.
  unfold drawCurrentImages. constructor; [exact I|].
  destruct (Qeq_bool (rect_width rect) 0); [constructor|].
  apply Forall_app. split;
    match goal with
    | |- Forall _ (drawIfPresent ?o _ _ _ _) =>
        destruct o; cbn; repeat constructor
    end.
Qed.

Lemma resizeCanvas_transform (dpr : Q) (s : State) :
  ~ dpr == 0 -> Forall transform_ok (canvasLog s) ->
  Forall transform_ok (canvasLog (resizeCanvas dpr s)).
Proof.
  intros Hd Hlog. unfold resizeCanvas, draw. cbn [canvasLog set_canvasLog].
  apply Forall_app. split; [exact Hlog|].
  apply Forall_app. split; [|apply drawCurrentImages_transform].
  repeat constructor; try exact Hd; reflexivity.
Qed.

Lemma resizeEffect_transform (s : State) :
  Forall transform_ok (canvasLog s) ->
  Forall transform_ok (canvasLog (resizeEffect s))
  /\ (forall dpr, resizeListener (resizeEffect s) = Some dpr -> ~ dpr == 0).
Proof.
  intro Hlog. unfold resizeEffect. destruct (noImages s).
  - split; [exact Hlog | discriminate].
  - cbn [canvasLog resizeListener set_resizeListener]. split.
    + apply resizeCanvas_transform; [apply or1_nonzero | exact Hlog].
    + intros dpr E. injection E as <-. apply or1_nonzero.
Qed.

Lemma fold_runCallback_transform (q : list FrameCallback) (s : State) :
  Forall transform_ok (canvasLog s) ->
  Forall transform_ok (canvasLog (fold_left runCallback q s)).
Proof.
  revert s. induction q as [|cb q IH]; intros s Hlog; cbn [fold_left];
    [exact Hlog|].
  apply IH. unfold runCallback, draw. cbn [canvasLog set_animationFrame set_canvasLog].
  apply Forall_app. split; [exact Hlog | apply drawCurrentImages_transform].
Qed.

(** X15.  In every reachable state, every call made on the context
    transform is either the reset to the identity or a scale by one
    factor on both axes, and that factor is never 0: thanks to
    [devicePixelRatio || 1] the context is never scaled to nothing, and
    the installed resize handler never holds a zero pixel ratio. *)
Lemma transform_stays_uniform :
  forall s : State,
    reachable s ->
    Forall transform_ok (canvasLog s)
    /\ (forall dpr : Q, resizeListener s = Some dpr -> ~ dpr == 0).
Proof.
  induction 1 as [imgs bg r dpr Hr | s e Hs [IHlog IHdpr] He].
  - unfold mount, loadImages, setLoadedImages, resizeEffect.
    destruct imgs; cbn; split; solve [constructor | discriminate].
  - destruct e as [srcs | color | r i o | x | x | | r | d | ]; cbn [step].
    + unfold loadImages, setLoadedImages. destruct srcs.
      * apply resizeEffect_transform. exact IHlog.
      * split; assumption.
    + apply resizeEffect_transform. exact IHlog.
    + unfold imageSettled, setLoadedImages.
      destruct (nth_error (loads s) r); [|split; assumption].
      destruct (settle l i o) as [req' [loaded|]]; [|split; assumption].
      apply resizeEffect_transform. exact IHlog.
    + split; assumption.
    + destruct (handleMouseMove_frame x s) as (_ & _ & _ & Hl & _ & Hr & _).
      rewrite Hl, Hr. split; assumption.
    + split; assumption.
    + unfold windowResize. cbn [resizeListener set_rect].
      destruct (resizeListener s) as [dpr|] eqn:El.
      * split.
        -- apply resizeCanvas_transform; [apply IHdpr; reflexivity | exact IHlog].
        -- cbn. rewrite El. exact IHdpr.
      * split; [exact IHlog |]. cbn. rewrite El. discriminate.
    + split; assumption.
    + destruct (animationFrameTick_frame s) as (_ & _ & _ & Hr & _).
      rewrite Hr. split; [|exact IHdpr].
      unfold animationFrameTick. apply fold_runCallback_transform. exact IHlog.
Qed.

(** X15, witness: the page of [App] after the display reported a pixel
    ratio of 0 and the background colour changed, which runs the resize
    effect again: the handler holds 1. *)
Lemma transform_stays_uniform_witness :
  reachable (run App.loaded [PixelRatioChanged 0; BackgroundChanged "#000000"]) /\
  resizeListener (run App.loaded [PixelRatioChanged 0; BackgroundChanged "#000000"])
    = Some 1 /\
  Forall transform_ok
    (canvasLog (run App.loaded [PixelRatioChanged 0; BackgroundChanged "#000000"])).
Proof.
  assert (Hr : reachable (run App.loaded
                            [PixelRatioChanged 0; BackgroundChanged "#000000"]))
    by (apply reachable_run; [exact App_loaded_reachable | reflexivity]).
  split; [exact Hr|]. split; [reflexivity|].
  exact (proj1 (transform_stays_uniform _ Hr)).
Defined.

Lemma drawCurrentImages_fill rect scroll imgs bg :
  Forall (fill_ok bg) (drawCurrentImages rect scroll imgs bg).
Proof.
  unfold drawCurrentImages. constructor; [exact I|].
  destruct (Qeq_bool (rect_width rect) 0); [constructor|].
  apply Forall_app. split;
    match goal with
    | |- Forall _ (drawIfPresent ?o _ _ _ _) =>
        destruct o; cbn; repeat constructor
    end.
Qed.

Lemma fold_runCallback_fill (bg : string) (q : list FrameCallback) (s : State) :
  Forall (fun cb => cb_backgroundColor cb = bg) q ->
  Forall (fill_ok bg) (canvasLog s) ->
  Forall (fill_ok bg) (canvasLog (fold_left runCallback q s)).
Proof.
  revert s. induction q as [|cb q IH]; intros s Hq Hlog; cbn [fold_left];
    [exact Hlog|].
  inversion Hq as [|? ? Hcb Hq']; subst.
  apply IH; [exact Hq'|].
  unfold runCallback, draw. cbn [canvasLog set_animationFrame set_canvasLog].
  apply Forall_app. split; [exact Hlog | apply drawCurrentImages_fill].
Qed.

Lemma resizeEffect_fill (s : State) :
  Forall (fill_ok (backgroundColor s)) (canvasLog s) ->
  Forall (fill_ok (backgroundColor s)) (canvasLog (resizeEffect s))
  /\ backgroundColor (resizeEffect s) = backgroundColor s
  /\ frameQueue (resizeEffect s) = frameQueue s.
Proof.
  intro Hlog. unfold resizeEffect, resizeCanvas, draw. destruct (noImages s).
  - repeat split. exact Hlog.
  - cbn [canvasLog backgroundColor frameQueue set_resizeListener set_canvasLog].
    repeat split.
    apply Forall_app. split; [exact Hlog|].
    apply Forall_app. split; [repeat constructor | apply drawCurrentImages_fill].
Qed.

Lemma fold_runCallback_background (q : list FrameCallback) (s : State) :
  backgroundColor (fold_left runCallback q s) = backgroundColor s.
Proof.
  revert s. induction q as [|cb q IH]; intro s; cbn [fold_left];
    [reflexivity | rewrite IH; reflexivity].
Qed.

Lemma step_keeps_background (s : State) (e : Event) :
  isBackgroundChanged e = false ->
  backgroundColor (step s e) = backgroundColor s.
Proof.
  intro He.
  destruct e as [srcs | color | r i o | x | x | | r | d | ]; try discriminate He;
    try solve [frame_cases].
  - cbn [step]. unfold handleMouseMove.
    destruct (negb (isDragging s) || noImages s); [reflexivity|].
    cbn [animationFrame set_scrollRef set_startXRef].
    destruct (animationFrame s); reflexivity.
  - cbn [step]. unfold animationFrameTick.
    rewrite fold_runCallback_background. reflexivity.
Qed.

Lemma step_queue_fill (bg : string) (s : State) (e : Event) :
  backgroundColor s = bg ->
  Forall (fun cb => cb_backgroundColor cb = bg) (frameQueue s) ->
  Forall (fun cb => cb_backgroundColor cb = bg) (frameQueue (step s e)).
Proof.
  intros Hb Hq.
  destruct e as [srcs | color | r i o | x | x | | r | d | ];
    try (match goal with
         | |- Forall _ (frameQueue (step s ?e)) =>
             destruct (step_keeps_frames s e) as [_ E];
             [discriminate | discriminate | rewrite E; exact Hq]
         end).
  - cbn [step]. unfold handleMouseMove.
    destruct (negb (isDragging s) || noImages s); [exact Hq|].
    cbn [animationFrame set_scrollRef set_startXRef].
    destruct (animationFrame s); cbn; [exact Hq|].
    apply Forall_app. split; [exact Hq|]. repeat constructor. exact Hb.
  - cbn [step]. unfold animationFrameTick.
    destruct (fold_runCallback_frame (frameQueue s) (set_frameQueue [] s))
      as (_ & _ & _ & _ & _ & Hq' & _).
    rewrite Hq'. constructor.
Qed.

Lemma step_log_fill (bg : string) (s : State) (e : Event) :
  isBackgroundChanged e = false ->
  backgroundColor s = bg ->
  Forall (fun cb => cb_backgroundColor cb = bg) (frameQueue s) ->
  Forall (fill_ok bg) (canvasLog s) ->
  Forall (fill_ok bg) (canvasLog (step s e)).
Proof.
  intros He Hb Hq Hlog.
  destruct e as [srcs | color | r i o | x | x | | r | d | ]; try discriminate He;
    cbn [step].
  - unfold loadImages, setLoadedImages, resizeEffect. destruct srcs; cbn; exact Hlog.
  - unfold imageSettled, setLoadedImages.
    destruct (nth_error (loads s) r); [|exact Hlog].
    destruct (settle l i o) as [req' [loaded|]]; [|exact Hlog].
    set (s0 := set_loadedImages loaded (set_loads (list_set r req' (loads s)) s)).
    assert (Hb0 : backgroundColor s0 = bg) by exact Hb.
    destruct (resizeEffect_fill s0) as (H1 & _).
    + rewrite Hb0. exact Hlog.
    + rewrite Hb0 in H1. exact H1.
  - exact Hlog.
  - destruct (handleMouseMove_frame x s) as (_ & _ & _ & Hl & _).
    rewrite Hl. exact Hlog.
  - exact Hlog.
  - destruct (resizeListener s) as [dpr|] eqn:El.
    + destruct (windowResize_log s r dpr El) as [E _]. cbn [step] in E.
      rewrite E. apply Forall_app. split; [exact Hlog|].
      unfold resizeCalls. apply Forall_app. split; [repeat constructor|].
      rewrite Hb. apply drawCurrentImages_fill.
    + unfold windowResize. cbn [resizeListener set_rect]. rewrite El. exact Hlog.
  - exact Hlog.
  - unfold animationFrameTick.
    apply fold_runCallback_fill; assumption.
Qed.

(** X18.  On a page that never changes [backgroundColor], the only fill
    style the component ever sets is that colour: every background fill,
    whether painted by a load, a resize or a frame, uses the
    [backgroundColor] prop. *)
Lemma fills_use_backgroundColor :
  forall (imgs : list string) (bg : string) (r : DOMRect) (dpr : Q)
         (es : list Event),
    forallb (fun e => negb (isBackgroundChanged e)) es = true ->
    Forall (fill_ok bg) (canvasLog (run (mount imgs bg r dpr) es)).
Proof.
  intros imgs bg r dpr es.
  assert (H0 : backgroundColor (mount imgs bg r dpr) = bg
               /\ Forall (fun cb => cb_backgroundColor cb = bg)
                    (frameQueue (mount imgs bg r dpr))
               /\ Forall (fill_ok bg) (canvasLog (mount imgs bg r dpr))).
  { unfold mount, loadImages, setLoadedImages, resizeEffect.
    destruct imgs; cbn; repeat split; constructor. }
  generalize dependent (mount imgs bg r dpr). intro s. revert s.
  induction es as [|e es IH]; intros s (Hb & Hq & Hlog) Hes;
    cbn [run fold_left forallb] in *.
  - exact Hlog.
  - apply andb_true_iff in Hes. destruct Hes as [He Hes].
    apply negb_true_iff in He.
    apply (IH (step s e)); [|exact Hes].
    split; [|split].
    + rewrite step_keeps_background by exact He. exact Hb.
    + apply step_queue_fill; assumption.
    + apply step_log_fill; assumption.
Qed.

(** X18, witness: the page of [App] through a load, a drag, a frame and a
    resize. *)
Lemma fills_use_backgroundColor_witness :
  Forall (fill_ok "#F2F2F2")
    (canvasLog
       (run (mount App.images "#F2F2F2" (mkRect 640 400) 1)
          [ ImageSettled 0 2 (Loaded 600 800); ImageSettled 0 0 (Loaded 1200 800);
            ImageSettled 0 3 (Loaded 1280 800); ImageSettled 0 1 (Loaded 800 600);
            MouseDown 320; MouseMove 200; AnimationFrame;
            WindowResized (mkRect 320 200) ])).
Proof.
  apply fills_use_backgroundColor. reflexivity.
Defined.

(** ** Slides do not overlap *)

Lemma fitRect_horizontal (img : Image) (cw ch : Q) :
  0 < width img -> 0 < height img -> 0 < cw -> 0 < ch ->
  0 <= drawX (fitRect img cw ch)
  /\ drawX (fitRect img cw ch) + drawWidth (fitRect img cw ch) <= cw.
Proof.
  intros Hiw Hih Hcw Hch.
  destruct (Qlt_le_dec (cw / ch) (width img / height img)) as [Hlt | Hle].
  - destruct (fitRect_wide img cw ch) as [E _]; try assumption.
    rewrite E. cbn [drawX drawWidth]. split; lra.
  - destruct (fitRect_tall img cw ch) as [E [Hd0 Hd1]]; try assumption.
    rewrite E. cbn [drawX drawWidth].
    set (W := ch * (width img / height img)) in *.
    assert (Hhalf : (cw - W) / 2 == (cw - W) * (1 # 2)) by field.
    rewrite Hhalf. split; lra.
Qed.

Lemma drawIfPresent_within (o : option Image) (x cw ch : Q) (bg : string) :
  (forall img, o = Some img -> 0 < width img /\ 0 < height img) ->
  0 < cw -> 0 < ch ->
  Forall2 within (drawnSpans (drawIfPresent o x cw ch bg))
                 (fillSpans (drawIfPresent o x cw ch bg)).
Proof.
  intros Hpos Hcw Hch. destruct o as [img|]; [|constructor].
  destruct (Hpos img eq_refl) as [Hiw Hih].
  destruct (fitRect_horizontal img cw ch Hiw Hih Hcw Hch) as [H0 H1].
  cbn [drawIfPresent drawImageFit drawnSpans fillSpans].
  constructor; [|constructor].
  unfold within. cbn [fst snd]. split; lra.
Qed.

Lemma drawnSpans_app (l1 l2 : list CanvasOp) :
  drawnSpans (l1 ++ l2) = drawnSpans l1 ++ drawnSpans l2.
Proof.
  induction l1 as [|op l1 IH]; [reflexivity|].
  destruct op; cbn [app drawnSpans]; rewrite IH; reflexivity.
Qed.

Lemma get_In {A : Type} (arr : list A) (i : Z) (a : A) :
  JS.get arr i = Some a -> In a arr.
Proof.
  unfold JS.get. destruct (i <? 0)%Z; [discriminate|].
  apply nth_error_In.
Qed.

(** X19.  Every image is drawn within the horizontal extent of the
    background fill of its own slide, whatever the scroll offset, and when
    two slides are drawn the fill of the second starts where the fill of
    the first ends: the two pictures of a paint never overlap. *)
Lemma images_stay_in_their_slide :
  forall (rect : DOMRect) (scroll : Q) (loadedImages : list Image) (bg : string),
    0 < rect_width rect -> 0 < rect_height rect ->
    Forall (fun img => 0 < width img /\ 0 < height img) loadedImages ->
    Forall2 within
      (drawnSpans (drawCurrentImages rect scroll loadedImages bg))
      (fillSpans (drawCurrentImages rect scroll loadedImages bg))
    /\ (forall a b : Q * Q,
          fillSpans (drawCurrentImages rect scroll loadedImages bg) = [a; b] ->
          snd a == fst b).
Proof.
  intros rect scroll imgs bg Hw Hh Hpos.
  rewrite (drawCurrentImages_positive_width rect scroll imgs bg Hw).
  cbn [drawnSpans fillSpans]. rewrite drawnSpans_app, fillSpans_app.
  split.
  - rewrite Forall_forall in Hpos.
    apply Forall2_app; apply drawIfPresent_within; try assumption;
      intros img Hget; apply Hpos; exact (get_In _ _ _ Hget).
  - intros a b.
    destruct (JS.get imgs (Qfloor (scroll / rect_width rect)));
      destruct (JS.get imgs (Qfloor (scroll / rect_width rect) + 1));
      cbn [drawIfPresent drawImageFit fillSpans app]; intro E;
      try discriminate E.
    injection E as <- <-. cbn [fst snd]. ring.
Qed.

(** X19, witness: the page of [App] at offset 700. *)
Lemma images_stay_in_their_slide_witness :
  Forall2 within
    (drawnSpans (drawCurrentImages (mkRect 640 400) 700
                   [ mkImage "/images/0.jpg" 1200 800; mkImage "/images/1.jpg" 800 600;
                     mkImage "/images/2.jpg" 600 800; mkImage "/images/3.jpg" 1280 800 ]
                   "#F2F2F2"))
    (fillSpans (drawCurrentImages (mkRect 640 400) 700
                  [ mkImage "/images/0.jpg" 1200 800; mkImage "/images/1.jpg" 800 600;
                    mkImage "/images/2.jpg" 600 800; mkImage "/images/3.jpg" 1280 800 ]
                  "#F2F2F2")).
Proof.
  apply images_stay_in_their_slide.
  - reflexivity.
  - reflexivity.
  - repeat constructor.
Defined.
